(** * Graph.h: a dynamic sparse graph (adjacency lists over shared pointers)

    The C++ class template [Graph<Key, Hash, V, E>] keeps an
    [std::unordered_map<Key, std::shared_ptr<Vertex>>] and a [size_t]
    counter.  Vertices and edges live on the free store and refer to each
    other through [shared_ptr]s, so object identity matters: the same edge
    object is listed by both of its end vertices.

    The embedding keeps that store explicit.  A pointer is an address
    ([positive]); the store maps addresses to objects; every member
    function of [Graph] is a computation in a small state-and-fault monad
    over the store, the key map and the counter.

    An object whose last owner lets go of it is not taken out of the
    store: it stays behind as garbage that the map and the listed edges
    no longer lead to, and [new] hands out an address that was never
    used before.  Payloads are opaque; the member functions copy them
    and never look inside. *)

From stdpp Require Import gmap list fin_maps fin_sets strings.
From Stdlib Require Import ZArith Lia.

Local Open Scope Z_scope.

(** Addresses of [Vertex] and of [Edge] objects. *)
Abbreviation vptr := positive.
Abbreviation eptr := positive.

(** [size_t] on the LP64 targets the header is written for. *)
Definition size_t_bits : Z := 64.
Definition size_t_modulus : Z := 2 ^ size_t_bits.
Definition size_t_wrap (z : Z) : Z := z mod size_t_modulus.

(** Ways a member function stops without returning.  [AssertionFailed] is
    a failed [assert]; [OutOfRange] is the exception thrown by
    [unordered_map::at]; [Dangling] is a dereference of an address that
    holds no object; [PastTheEnd] is a write through (or a pop at) an
    [end()] iterator; [OutOfFuel] belongs to the model only: the loop of
    [removeVertex] is unrolled a bounded number of times. *)
Inductive fault : Type :=
  | AssertionFailed
  | OutOfRange
  | Dangling
  | PastTheEnd
  | OutOfFuel.

Global Instance fault_eq_dec : EqDecision fault.
Proof. solve_decision. Defined.

Section Graph.

Context {Key : Type} `{Countable Key}.
Context {V E : Type}.

(** [struct Vertex]: [edges] and [data]. *)
Record Vertex : Type := mkVertex {
  edges : list eptr;
  vdata : V
}.

(** [struct Edge]: [vertices] (an array of two) and [data]. *)
Record Edge : Type := mkEdge {
  evertices : vptr * vptr;
  edata : E
}.

(** The free store together with the two private members of [Graph].
    [gsize] is the member [size], [vertices] the member [vertices]. *)
Record State : Type := mkState {
  vheap : gmap vptr Vertex;
  eheap : gmap eptr Edge;
  gsize : Z;
  vertices : gmap Key vptr
}.

(** A run either returns a value or stops with a fault; both carry the
    state at that moment, so that what a stopped run has already written
    stays visible. *)
Inductive outcome (A : Type) : Type :=
  | Return (a : A) (s : State)
  | Halt (f : fault) (s : State).
Global Arguments Return {A} a s.
Global Arguments Halt {A} f s.

Definition M (A : Type) : Type := State → outcome A.

Global Instance M_ret : MRet M := λ A a s, Return a s.

Global Instance M_bind : MBind M := λ A B k m s,
  match m s with
  | Return a s' => k a s'
  | Halt f s' => Halt f s'
  end.

Definition halt {A} (f : fault) : M A := λ s, Halt f s.

(** ** Primitive steps *)

(** [assert(b)], with assertions compiled in. *)
Definition assert (b : bool) : M unit :=
  if b then mret tt else halt AssertionFailed.

(** [vertices.at(key)] *)
Definition at_ (key : Key) : M vptr :=
  λ s, match vertices s !! key with
       | Some p => Return p s
       | None => Halt OutOfRange s
       end.

(** [p->edges] read *)
Definition get_edges (p : vptr) : M (list eptr) :=
  λ s, match vheap s !! p with
       | Some v => Return (edges v) s
       | None => Halt Dangling s
       end.

(** [p->edges] overwritten by a new sequence *)
Definition set_edges (p : vptr) (l : list eptr) : M unit :=
  λ s, match vheap s !! p with
       | Some v =>
           Return tt (mkState (<[p := mkVertex l (vdata v)]> (vheap s))
                              (eheap s) (gsize s) (vertices s))
       | None => Halt Dangling s
       end.

(** [e->vertices] read *)
Definition get_evertices (e : eptr) : M (vptr * vptr) :=
  λ s, match eheap s !! e with
       | Some ed => Return (evertices ed) s
       | None => Halt Dangling s
       end.

(** [new Vertex<V, E>(data)] *)
Definition new_vertex (data : V) : M vptr :=
  λ s, let p := fresh (dom (vheap s)) in
       Return p (mkState (<[p := mkVertex [] data]> (vheap s))
                         (eheap s) (gsize s) (vertices s)).

(** [new Edge<V, E>(vertices, data)] *)
Definition new_edge (vs : vptr * vptr) (data : E) : M eptr :=
  λ s, let e := fresh (dom (eheap s)) in
       Return e (mkState (vheap s) (<[e := mkEdge vs data]> (eheap s))
                         (gsize s) (vertices s)).

(** [vertices.insert(pair)]: an existing entry is kept. *)
Definition map_insert (key : Key) (p : vptr) : M unit :=
  λ s, Return tt
         (mkState (vheap s) (eheap s) (gsize s)
                  (match vertices s !! key with
                   | Some _ => vertices s
                   | None => <[key := p]> (vertices s)
                   end)).

(** [vertices.erase(key)] *)
Definition map_erase (key : Key) : M unit :=
  λ s, Return tt (mkState (vheap s) (eheap s) (gsize s) (delete key (vertices s))).

(** [++size] and [--size] *)
Definition incr_size : M unit :=
  λ s, Return tt (mkState (vheap s) (eheap s) (size_t_wrap (gsize s + 1)) (vertices s)).
Definition decr_size : M unit :=
  λ s, Return tt (mkState (vheap s) (eheap s) (size_t_wrap (gsize s - 1)) (vertices s)).

(** ** Sequence helpers *)

(** [v.pop_back()] on a non-empty vector *)
Definition pop_back (l : list eptr) : list eptr := take (pred (length l)) l.

(** [*it = *(--v.end()); v.pop_back();] with [it] at index [i] of a
    non-empty vector *)
Definition swap_pop (i : nat) (l : list eptr) : list eptr :=
  match last l with
  | Some b => pop_back (<[i := b]> l)
  | None => l
  end.

(** [std::find(v.begin(), v.end(), x)]: index of the first [x], if any *)
Definition std_find (x : eptr) (l : list eptr) : option nat :=
  fst <$> list_find (λ y, y = x) l.

(** The test of the scanning loops of [getEdge] and [removeEdge]. *)
Definition touches (vertex_1 : vptr) (vs : vptr * vptr) : bool :=
  bool_decide (vs.1 = vertex_1) || bool_decide (vs.2 = vertex_1).

(** The scanning loop: walk the sequence from index [i] on, dereferencing
    each edge, until one has [vertex_1] in one of its two slots. *)
Fixpoint scan (vertex_1 : vptr) (l : list eptr) (i : nat) : M (option (nat * eptr)) :=
  match l with
  | [] => mret None
  | e :: l' =>
      vs ← get_evertices e;
      if touches vertex_1 vs then mret (Some (i, e))
      else scan vertex_1 l' (S i)
  end.

(** ** The member functions of [Graph] *)

(** The constructors: an empty map and [size(0)].  (The one that takes
    [vertex_count] also reserves buckets, which no member function
    observes.) *)
Definition Graph_new : State := mkState ∅ ∅ 0 ∅.

Definition addVertex (key : Key) (data : V) : M unit :=
  new_vertex_ ← new_vertex data;
  map_insert key new_vertex_;;
  incr_size.

Definition addEdge (key_0 key_1 : Key) (data : E) : M unit :=
  assert (bool_decide (key_0 ≠ key_1));;
  vertex_0 ← at_ key_0;
  vertex_1 ← at_ key_1;
  new_edge_ ← new_edge (vertex_0, vertex_1) data;
  l0 ← get_edges vertex_0;
  set_edges vertex_0 (l0 ++ [new_edge_]);;
  l1 ← get_edges vertex_1;
  set_edges vertex_1 (l1 ++ [new_edge_]).

Definition getVertex (key : Key) : M vptr := at_ key.

Definition getEdge (key_0 key_1 : Key) : M eptr :=
  assert (bool_decide (key_0 ≠ key_1));;
  vertex_0 ← at_ key_0;
  vertex_1 ← at_ key_1;
  l0 ← get_edges vertex_0;
  edge_iterator ← scan vertex_1 l0 0;
  match edge_iterator with
  | None => halt AssertionFailed
  | Some (_, e) => mret e
  end.

(** [getKey] walks the map from [begin()]; the iteration order of an
    [unordered_map] is unspecified, the model takes the order of
    [map_to_list]. *)
Definition getKey (vertex : vptr) : M Key :=
  λ s, match list_find (λ kv : Key * vptr, kv.2 = vertex) (map_to_list (vertices s)) with
       | Some (_, kv) => Return kv.1 s
       | None => Halt AssertionFailed s
       end.

Definition getSize : M Z := λ s, Return (gsize s) s.

(** The loop of [removeVertex], one round per unit of fuel: take the
    last edge of [old_vertex], pick its other end, pop the edge here,
    find it there, overwrite it there with the last one and pop. *)
Fixpoint detach (fuel : nat) (old_vertex : vptr) : M unit :=
  l ← get_edges old_vertex;
  match last l with
  | None => mret tt
  | Some old_edge =>
      match fuel with
      | O => halt OutOfFuel
      | S fuel' =>
          vs ← get_evertices old_edge;
          let connected_vertex :=
            if bool_decide (old_vertex = vs.1) then vs.2 else vs.1 in
          set_edges old_vertex (pop_back l);;
          cl ← get_edges connected_vertex;
          match std_find old_edge cl with
          | None => halt PastTheEnd
          | Some i =>
              set_edges connected_vertex (swap_pop i cl);;
              detach fuel' old_vertex
          end
      end
  end.

(** The sequence of [old_vertex] is read once more before the loop, to
    give the loop one unit of fuel per listed edge
    ([removeVertex_fuel_enough] below: that is always enough). *)
Definition removeVertex (key : Key) : M unit :=
  old_vertex ← at_ key;
  l ← get_edges old_vertex;
  detach (length l) old_vertex;;
  map_erase key;;
  decr_size.

Definition removeEdge (key_0 key_1 : Key) : M unit :=
  assert (bool_decide (key_0 ≠ key_1));;
  vertex_0 ← at_ key_0;
  vertex_1 ← at_ key_1;
  l0 ← get_edges vertex_0;
  current_edge_iterator ← scan vertex_1 l0 0;
  match current_edge_iterator with
  | None => halt AssertionFailed
  | Some (i, old_edge) =>
      set_edges vertex_0 (swap_pop i l0);;
      l1 ← get_edges vertex_1;
      match std_find old_edge l1 with
      | None => halt PastTheEnd
      | Some j => set_edges vertex_1 (swap_pop j l1)
      end
  end.

(** ** Observations on a state *)

(** The edge sequence of the vertex at address [p] (empty when [p] holds
    no vertex). *)
Definition adj (s : State) (p : vptr) : list eptr :=
  match vheap s !! p with
  | Some v => edges v
  | None => []
  end.

Definition degree (s : State) (p : vptr) : nat := length (adj s p).

(** The vertices whose edge sequence lists [e]. *)
Definition listers (s : State) (e : eptr) : gset vptr :=
  dom (filter (λ pv : vptr * Vertex, e ∈ edges pv.2) (vheap s)).

(** The edges of the graph: those listed by a vertex of the key map. *)
Definition edge_set (s : State) : gset eptr :=
  ⋃ ((λ kv : Key * vptr, list_to_set (adj s kv.2)) <$> map_to_list (vertices s)).

Definition edge_count (s : State) : nat := size (edge_set s).

(** Does the edge at [e] have [v] in one of its two slots? *)
Definition incident (s : State) (v : vptr) (e : eptr) : bool :=
  match eheap s !! e with
  | Some ed => touches v (evertices ed)
  | None => false
  end.

(** The state after [p->edges] has been overwritten by [l]. *)
Definition put_edges (p : vptr) (l : list eptr) (s : State) : State :=
  match vheap s !! p with
  | Some v =>
      mkState (<[p := mkVertex l (vdata v)]> (vheap s))
              (eheap s) (gsize s) (vertices s)
  | None => s
  end.

(** [s'] is [s] with the edges of [D] taken out of every sequence and
    nothing else touched. *)
Record detached (D : list eptr) (s s' : State) : Prop := {
  dt_eheap : eheap s' = eheap s;
  dt_vertices : vertices s' = vertices s;
  dt_gsize : gsize s' = gsize s;
  dt_live : ∀ p, is_Some (vheap s' !! p) ↔ is_Some (vheap s !! p);
  dt_adj : ∀ p x, x ∈ adj s' p ↔ x ∈ adj s p ∧ x ∉ D;
  dt_nodup : ∀ p, NoDup (adj s' p);
  dt_keep : ∀ p, (∀ x, x ∈ D → x ∉ adj s p) → vheap s' !! p = vheap s !! p
}.

(** [s'] is [s] with the new edge [e], from [v0] to [v1] and carrying
    [d], appended to the sequences of [v0] and [v1]. *)
Record linked (e : eptr) (v0 v1 : vptr) (d : E) (s s' : State) : Prop := {
  lk_fresh : eheap s !! e = None;
  lk_eheap : eheap s' = <[e := mkEdge (v0, v1) d]> (eheap s);
  lk_vertices : vertices s' = vertices s;
  lk_gsize : gsize s' = gsize s;
  lk_live : ∀ p, is_Some (vheap s' !! p) ↔ is_Some (vheap s !! p);
  lk_adj : ∀ p, adj s' p =
             if bool_decide (p = v0 ∨ p = v1) then adj s p ++ [e] else adj s p;
  lk_keep : ∀ p, p ≠ v0 → p ≠ v1 → vheap s' !! p = vheap s !! p
}.

(** ** The invariants of section 3 of the specification *)

(** 1: a listed edge has the listing vertex in one of its slots. *)
Definition inv_incident (s : State) : Prop :=
  ∀ p e, e ∈ adj s p →
    ∃ ed, eheap s !! e = Some ed ∧ (p = (evertices ed).1 ∨ p = (evertices ed).2).

(** 2: a listed edge is listed by both of its end vertices. *)
Definition inv_both (s : State) : Prop :=
  ∀ p e ed, e ∈ adj s p → eheap s !! e = Some ed →
    e ∈ adj s (evertices ed).1 ∧ e ∈ adj s (evertices ed).2.

(** 3: no edge joins a vertex to itself. *)
Definition inv_noloop (s : State) : Prop :=
  ∀ e ed, eheap s !! e = Some ed → (evertices ed).1 ≠ (evertices ed).2.

(** 4: the counter is the number of entries of the key map. *)
Definition inv_count (s : State) : Prop :=
  gsize s = Z.of_nat (size (vertices s)).

(** 5: keys are unique. *)
Definition inv_keys (s : State) : Prop :=
  NoDup (map_to_list (vertices s)).*1.

(** What the [shared_ptr] discipline adds: the map holds live vertices,
    one per key; a sequence lists an edge once; only vertices of the map
    list edges. *)
Record store_ok (s : State) : Prop := {
  ok_live : ∀ k p, vertices s !! k = Some p → is_Some (vheap s !! p);
  ok_inj : ∀ k k' p, vertices s !! k = Some p → vertices s !! k' = Some p → k = k';
  ok_nodup : ∀ p, NoDup (adj s p);
  ok_owned : ∀ p e, e ∈ adj s p → ∃ k, vertices s !! k = Some p
}.

(** The structural part: everything but the counter. *)
Record wf (s : State) : Prop := {
  wf_store : store_ok s;
  wf_incident : inv_incident s;
  wf_both : inv_both s;
  wf_noloop : inv_noloop s;
  wf_keys : inv_keys s
}.

Definition invariants (s : State) : Prop := wf s ∧ inv_count s.

(** ** Runs of the public operations *)

Inductive op : Type :=
  | AddVertex (key : Key) (data : V)
  | AddEdge (key_0 key_1 : Key) (data : E)
  | GetVertex (key : Key)
  | GetEdge (key_0 key_1 : Key)
  | GetKey (vertex : vptr)
  | GetSize
  | RemoveVertex (key : Key)
  | RemoveEdge (key_0 key_1 : Key).

Definition run_op (o : op) : M unit :=
  match o with
  | AddVertex key data => addVertex key data
  | AddEdge key_0 key_1 data => addEdge key_0 key_1 data
  | GetVertex key => getVertex key;; mret tt
  | GetEdge key_0 key_1 => getEdge key_0 key_1;; mret tt
  | GetKey vertex => getKey vertex;; mret tt
  | GetSize => getSize;; mret tt
  | RemoveVertex key => removeVertex key
  | RemoveEdge key_0 key_1 => removeEdge key_0 key_1
  end.

Fixpoint exec (ops : list op) : M unit :=
  match ops with
  | [] => mret tt
  | o :: ops' => run_op o;; exec ops'
  end.

(** A state is reachable when some sequence of operations, each of which
    returns, leads to it from the empty graph.  A run that stops with a
    fault ends the sequence: on a state that is reached this way a fault
    is raised before anything is written ([run_op_halt] below), so a
    caller that catches the exception and goes on reaches nothing new. *)
Definition reachable (s : State) : Prop :=
  ∃ ops, exec ops Graph_new = Return tt s.

(** The one precondition the code does not check itself: [addVertex]
    wants a key that is not in the map.  (The others stop the run with a
    fault when they fail.) *)
Definition precondition (o : op) (s : State) : Prop :=
  match o with
  | AddVertex key _ => vertices s !! key = None
  | _ => True
  end.

Fixpoint lawful (ops : list op) (s : State) : Prop :=
  match ops with
  | [] => True
  | o :: ops' =>
      precondition o s ∧
      match run_op o s with
      | Return _ s' => lawful ops' s'
      | Halt _ _ => True
      end
  end.

End Graph.

Arguments Vertex : clear implicits.
Arguments Edge : clear implicits.
Arguments State Key {_ _} V E.
Arguments outcome Key {_ _} V E A.
Arguments M Key {_ _} V E A.
Arguments op Key V E : clear implicits.

(** * A small graph to run the operations on

    Keys and edge payloads are strings, vertex payloads are numbers. *)

Definition state_after (ops : list (op string nat string)) : State string nat string :=
  match exec ops Graph_new with
  | Return _ s => s
  | Halt _ s => s
  end.

Definition kA : string := "A".
Definition kB : string := "B".
Definition kC : string := "C".

(** Two vertices. *)
Definition ops_AB : list (op string nat string) :=
  [AddVertex kA 1%nat; AddVertex kB 2%nat].

(** Two vertices and one edge, then a second, parallel edge. *)
Definition ops_AB_x : list (op string nat string) :=
  ops_AB ++ [AddEdge kA kB "x"%string].
Definition ops_AB_xy : list (op string nat string) :=
  ops_AB_x ++ [AddEdge kA kB "y"%string].

(** The path A - B - C. *)
Definition ops_ABC : list (op string nat string) :=
  [AddVertex kA 1%nat; AddVertex kB 2%nat; AddVertex kC 3%nat;
   AddEdge kA kB "ab"%string; AddEdge kB kC "bc"%string].

Definition s_A : State string nat string := state_after [AddVertex kA 1%nat].
Definition s_AB : State string nat string := state_after ops_AB.
Definition s_AB_x : State string nat string := state_after ops_AB_x.
Definition s_AB_xy : State string nat string := state_after ops_AB_xy.
Definition s_ABC : State string nat string := state_after ops_ABC.

(** * The debugging output and some more observations

    [operator<<] writes one line for the graph, then, for every entry of
    the map in iteration order, one line for the vertex and one line for
    each edge of its sequence, with the two slots of the edge.  What is
    written are addresses, whose rendering as text is left to the
    platform; a line keeps the addresses themselves. *)

Inductive line : Type :=
  | GraphLine (graph : positive)
  | VertexLine (vertex : vptr)
  | EdgeLine (edge : eptr) (vertex_0 vertex_1 : vptr).

Global Instance line_eq_dec : EqDecision line.
Proof. solve_decision. Defined.

(** Is the line the line of the edge at [e]? *)
Definition is_edge_line (e : eptr) (ln : line) : bool :=
  match ln with
  | EdgeLine e' _ _ => bool_decide (e' = e)
  | _ => false
  end.

Section Output.

Context {Key : Type} `{Countable Key}.
Context {V E : Type}.

(** The inner loop: [for (auto& edge : vertex.second->edges)]. *)
Fixpoint print_edges (l : list eptr) : M Key V E (list line) :=
  match l with
  | [] => mret []
  | edge :: l' =>
      vs ← get_evertices edge;
      rest ← print_edges l';
      mret (EdgeLine edge vs.1 vs.2 :: rest)
  end.

(** The outer loop: [for (auto& vertex : graph.vertices)]. *)
Fixpoint print_vertices (kvs : list (Key * vptr)) : M Key V E (list line) :=
  match kvs with
  | [] => mret []
  | vertex :: kvs' =>
      l ← get_edges vertex.2;
      edge_lines ← print_edges l;
      rest ← print_vertices kvs';
      mret (VertexLine vertex.2 :: edge_lines ++ rest)
  end.

(** [os << graph], for the graph object at address [graph]; as for
    [getKey], the iteration order is taken to be that of [map_to_list]. *)
Definition print (graph : positive) : M Key V E (list line) :=
  λ s, (rest ← print_vertices (map_to_list (vertices s));
        mret (GraphLine graph :: rest)) s.

(** The degrees of the vertices of the map, added up. *)
Definition degree_sum (s : State Key V E) : nat :=
  sum_list ((λ kv : Key * vptr, degree s kv.2) <$> map_to_list (vertices s)).

(** The state a run ends in, returned or stopped. *)
Definition final_state {A} (r : outcome Key V E A) : State Key V E :=
  match r with
  | Return _ s => s
  | Halt _ s => s
  end.

End Output.

(** * Sequences: pop, swap-and-pop, find *)

Section Sequences.

Implicit Types l : list positive.

Lemma pop_back_snoc l x : pop_back (l ++ [x]) = l.
Proof.
  unfold pop_back. rewrite length_app, Nat.add_1_r. simpl.
  apply take_app_length.
Qed.

Lemma pop_back_length l : length (pop_back l) = pred (length l).
Proof. unfold pop_back. rewrite length_take. lia. Qed.

(** Overwriting slot [i] with the last element and dropping the last slot
    removes exactly the element that was at [i]. *)
Lemma swap_pop_perm i l x : l !! i = Some x → x :: swap_pop i l ≡ₚ l.
Proof.
  intros Hi. unfold swap_pop.
  destruct (last l) as [b|] eqn:Hlast.
  - apply last_Some in Hlast as [l' ->].
    destruct (decide (i < length l')%nat) as [Hlt|Hge].
    + rewrite insert_app_l by done. rewrite pop_back_snoc.
      rewrite lookup_app_l in Hi by done.
      rewrite (delete_Permutation l' i x Hi) at 2.
      rewrite <- (take_drop_middle l' i x Hi) at 1.
      rewrite insert_app_r_alt by (rewrite length_take; lia).
      rewrite length_take, Nat.min_l by lia.
      rewrite Nat.sub_diag. simpl.
      rewrite delete_take_drop.
      rewrite <- Permutation_middle.
      rewrite <- !Permutation_cons_append. done.
    + apply lookup_lt_Some in Hi as Hlen. rewrite length_app in Hlen. simpl in Hlen.
      assert (i = length l') as -> by lia.
      rewrite list_lookup_middle in Hi by done. simplify_eq.
      replace (length l') with (length l' + 0)%nat by lia.
      rewrite insert_app_r. simpl. rewrite pop_back_snoc.
      apply Permutation_cons_append.
  - apply last_None in Hlast. subst. done.
Qed.

Lemma swap_pop_length i l x :
  l !! i = Some x → length (swap_pop i l) = pred (length l).
Proof.
  intros Hi. apply swap_pop_perm in Hi.
  apply Permutation_length in Hi. simpl in Hi. lia.
Qed.

Lemma swap_pop_NoDup i l x :
  l !! i = Some x → NoDup l → NoDup (swap_pop i l) ∧ x ∉ swap_pop i l.
Proof.
  intros Hi Hnd. apply swap_pop_perm in Hi. rewrite <- Hi in Hnd.
  apply NoDup_cons in Hnd. tauto.
Qed.

Lemma swap_pop_elem_of i l x y :
  l !! i = Some x → NoDup l → y ∈ swap_pop i l ↔ y ∈ l ∧ y ≠ x.
Proof.
  intros Hi Hnd. destruct (swap_pop_NoDup i l x Hi Hnd) as [_ Hx].
  apply swap_pop_perm in Hi.
  assert (y ∈ l ↔ y ∈ x :: swap_pop i l) as -> by (by rewrite Hi).
  rewrite elem_of_cons.
  split; [|tauto]. intros Hy. split; [tauto|]. congruence.
Qed.

Lemma pop_back_last_perm l x : last l = Some x → x :: pop_back l ≡ₚ l.
Proof.
  intros [l' ->]%last_Some. rewrite pop_back_snoc. apply Permutation_cons_append.
Qed.

Lemma std_find_Some x l i : std_find x l = Some i → l !! i = Some x.
Proof.
  unfold std_find. destruct (list_find _ l) as [[j y]|] eqn:Hf; [|done].
  simpl. intros [= ->]. apply list_find_Some in Hf as (? & -> & _). done.
Qed.

Lemma std_find_elem_of x l : x ∈ l → is_Some (std_find x l).
Proof.
  intros Hx. unfold std_find.
  destruct (list_find_elem_of (λ y, y = x) l x Hx eq_refl) as [[j y] ->]. by eexists.
Qed.

Lemma std_find_None x l : std_find x l = None → x ∉ l.
Proof.
  intros Hn Hx. apply std_find_elem_of in Hx as [i Hi]. congruence.
Qed.

End Sequences.

(** * The store: reading and writing edge sequences *)

Section Store.

Context {Key : Type} `{Countable Key}.
Context {V E : Type}.

Abbreviation State := (State Key V E).
Abbreviation M := (M Key V E).

Implicit Types s : State.
Implicit Types p q : positive.
Implicit Types l : list positive.

Lemma bind_run {A B} (m : M A) (k : A → M B) s :
  (m ≫= k) s = match m s with
               | Return a s' => k a s'
               | Halt f s' => Halt f s'
               end.
Proof. reflexivity. Qed.

Lemma adj_elem_live s p x : x ∈ adj s p → is_Some (vheap s !! p).
Proof. unfold adj. destruct (vheap s !! p); [eauto|]. by intros ?%elem_of_nil. Qed.

Lemma at_run s k p : vertices s !! k = Some p → at_ k s = Return p s.
Proof. intros Hk. unfold at_. by rewrite Hk. Qed.

Lemma at_run_None s k : vertices s !! k = None → at_ k s = Halt OutOfRange s.
Proof. intros Hk. unfold at_. by rewrite Hk. Qed.

Lemma get_edges_run s p :
  is_Some (vheap s !! p) → get_edges p s = Return (adj s p) s.
Proof. intros [v Hv]. unfold get_edges, adj. by rewrite Hv. Qed.

Lemma set_edges_run s p l :
  is_Some (vheap s !! p) → set_edges p l s = Return tt (put_edges p l s).
Proof. intros [v Hv]. unfold set_edges, put_edges. by rewrite Hv. Qed.

Lemma get_evertices_run s e ed :
  eheap s !! e = Some ed → get_evertices e s = Return (evertices ed) s.
Proof. intros He. unfold get_evertices. by rewrite He. Qed.

Lemma put_edges_eheap p l s : eheap (put_edges p l s) = eheap s.
Proof. unfold put_edges. by destruct (vheap s !! p). Qed.

Lemma put_edges_vertices p l s : vertices (put_edges p l s) = vertices s.
Proof. unfold put_edges. by destruct (vheap s !! p). Qed.

Lemma put_edges_gsize p l s : gsize (put_edges p l s) = gsize s.
Proof. unfold put_edges. by destruct (vheap s !! p). Qed.

Lemma put_edges_live p l s q :
  is_Some (vheap (put_edges p l s) !! q) ↔ is_Some (vheap s !! q).
Proof.
  unfold put_edges. destruct (vheap s !! p) as [v|] eqn:Hp; [|done]. simpl.
  destruct (decide (p = q)) as [->|Hne].
  - rewrite lookup_insert_eq, Hp. split; eauto.
  - by rewrite lookup_insert_ne.
Qed.

Lemma put_edges_adj_eq p l s :
  is_Some (vheap s !! p) → adj (put_edges p l s) p = l.
Proof.
  intros [v Hv]. unfold put_edges, adj. rewrite Hv. simpl.
  by rewrite lookup_insert_eq.
Qed.

Lemma put_edges_other p l s q :
  p ≠ q → vheap (put_edges p l s) !! q = vheap s !! q.
Proof.
  intros Hne. unfold put_edges. destruct (vheap s !! p); [|done]. simpl.
  by rewrite lookup_insert_ne.
Qed.

Lemma put_edges_adj_ne p l s q : p ≠ q → adj (put_edges p l s) q = adj s q.
Proof. intros Hne. unfold adj. by rewrite put_edges_other. Qed.

(** The scanning loop visits live edges only, so it reads and never
    writes; its answer is the first listed edge that touches [v]. *)
Lemma scan_run s v l i :
  (∀ e, e ∈ l → is_Some (eheap s !! e)) →
  scan v l i s =
    Return (match list_find (λ e, incident s v e) l with
            | Some (j, e) => Some ((i + j)%nat, e)
            | None => None
            end) s.
Proof.
  revert i. induction l as [|e l IH]; intros i Hlive; [done|].
  destruct (Hlive e) as [ed Hed]; [by left|].
  simpl. rewrite bind_run, (get_evertices_run _ _ _ Hed).
  assert (incident s v e = touches v (evertices ed)) as Hinc
    by (unfold incident; by rewrite Hed).
  destruct (touches v (evertices ed)) eqn:Ht.
  - rewrite decide_True by (by rewrite Hinc). simpl. by rewrite Nat.add_0_r.
  - rewrite decide_False by (rewrite Hinc; exact id).
    rewrite IH by (intros; apply Hlive; by right).
    destruct (list_find _ l) as [[j e']|]; simpl; [|done].
    by rewrite Nat.add_succ_r.
Qed.

End Store.

(** * The structural invariants and the removal of edges *)

Section Invariants.

Context {Key : Type} `{Countable Key}.
Context {V E : Type}.

Abbreviation State := (State Key V E).
Abbreviation M := (M Key V E).

Implicit Types s : State.
Implicit Types p q r : positive.
Implicit Types e x : positive.
Implicit Types l D : list positive.

Lemma inv_keys_any s : inv_keys s.
Proof. apply NoDup_fst_map_to_list. Qed.

Lemma wf_edge_live s p e : wf s → e ∈ adj s p → is_Some (eheap s !! e).
Proof. intros Hwf He. destruct (wf_incident s Hwf p e He) as (ed & Hed & _). eauto. Qed.

(** Under the invariants the listers of a listed edge are its two ends. *)
Lemma wf_endpoints s p e ed :
  wf s → e ∈ adj s p → eheap s !! e = Some ed →
  ∀ q, e ∈ adj s q ↔ q = (evertices ed).1 ∨ q = (evertices ed).2.
Proof.
  intros Hwf He Hed q. split.
  - intros Hq. destruct (wf_incident s Hwf q e Hq) as (ed' & Hed' & Hends).
    by simplify_eq.
  - destruct (wf_both s Hwf p e ed He Hed) as [H1 H2]. by intros [-> | ->].
Qed.

Lemma wf_other_end s p q e ed :
  wf s → e ∈ adj s p → eheap s !! e = Some ed →
  q = (if bool_decide (p = (evertices ed).1) then (evertices ed).2 else (evertices ed).1) →
  p ≠ q ∧ e ∈ adj s q ∧ ∀ r, e ∈ adj s r ↔ r = p ∨ r = q.
Proof.
  intros Hwf He Hed ->.
  pose proof (wf_noloop s Hwf e ed Hed) as Hne.
  pose proof (wf_endpoints s p e ed Hwf He Hed) as Hends.
  apply Hends in He as Hp.
  case_bool_decide as Hd.
  - subst p. split; [done|]. split; [apply Hends; by right|]. done.
  - destruct Hp as [?|Hp]; [done|]. subst p. split; [done|].
    split; [apply Hends; by left|]. intros r. rewrite Hends. tauto.
Qed.

Lemma detached_wf D s s' : wf s → detached D s s' → wf s'.
Proof.
  intros Hwf Hd. destruct Hd as [He Hv Hg Hl Ha Hn Hk].
  pose proof (wf_store s Hwf) as Hst.
  split; [split| | | |].
  - intros k p Hkp. rewrite Hv in Hkp. apply Hl. by eapply ok_live.
  - intros k k' p. rewrite Hv. by eapply ok_inj.
  - done.
  - intros p x [Hx _]%Ha. rewrite Hv. by eapply ok_owned.
  - intros p x [Hx _]%Ha. rewrite He. by apply (wf_incident s Hwf).
  - intros p x ed [Hx Hnot]%Ha Hed. rewrite He in Hed.
    destruct (wf_both s Hwf p x ed Hx Hed). rewrite !Ha. tauto.
  - intros x ed. rewrite He. by apply (wf_noloop s Hwf).
  - apply inv_keys_any.
Qed.

Lemma detached_refl s : (∀ p, NoDup (adj s p)) → detached [] s s.
Proof.
  intros Hn. split; try done.
  intros p x. split; [|tauto]. intros ?. split; [done|]. apply not_elem_of_nil.
Qed.

Lemma detached_trans D1 D2 D s s1 s2 :
  (∀ x, x ∈ D ↔ x ∈ D1 ∨ x ∈ D2) →
  detached D1 s s1 → detached D2 s1 s2 → detached D s s2.
Proof.
  intros HD [He1 Hv1 Hg1 Hl1 Ha1 Hn1 Hk1] [He2 Hv2 Hg2 Hl2 Ha2 Hn2 Hk2].
  split.
  - congruence.
  - congruence.
  - congruence.
  - intros p. by rewrite Hl2.
  - intros p x. rewrite Ha2, Ha1, HD. tauto.
  - done.
  - intros p Hp. rewrite Hk2, Hk1; [done| |].
    + intros x Hx. apply Hp, HD. by left.
    + intros x Hx [Hin _]%Ha1. apply (Hp x); [|done]. apply HD. by right.
Qed.

(** Taking one listed edge out of the sequences of both of its ends: out
    of [p]'s by any means that leaves a permutation of the rest, out of
    [q]'s by swap-and-pop at its index. *)
Lemma unlink_detached s e ed p q lp j :
  wf s → eheap s !! e = Some ed →
  e :: lp ≡ₚ adj s p →
  q = (if bool_decide (p = (evertices ed).1) then (evertices ed).2 else (evertices ed).1) →
  adj s q !! j = Some e →
  detached [e] s (put_edges q (swap_pop j (adj s q)) (put_edges p lp s)).
Proof.
  intros Hwf Hed Hperm Hq Hj.
  assert (e ∈ adj s p) as Hep by (rewrite <- Hperm; by left).
  destruct (wf_other_end s p q e ed Hwf Hep Hed Hq) as (Hpq & Heq & Hends).
  pose proof (ok_nodup s (wf_store s Hwf)) as Hnd.
  assert (is_Some (vheap s !! p)) as Hlp by by eapply adj_elem_live.
  assert (is_Some (vheap s !! q)) as Hlq by by eapply adj_elem_live.
  assert (is_Some (vheap (put_edges p lp s) !! q)) as Hlq' by by apply put_edges_live.
  assert (NoDup (e :: lp)) as [Help Hndlp]%NoDup_cons by (rewrite Hperm; apply Hnd).
  assert (∀ x, x ∈ lp ↔ x ∈ adj s p ∧ x ≠ e) as Hlp_in.
  { intros x. assert (x ∈ adj s p ↔ x ∈ e :: lp) as -> by (by rewrite Hperm).
    rewrite elem_of_cons. split; [|tauto]. intros Hx. split; [tauto|]. congruence. }
  assert (∀ r, adj (put_edges q (swap_pop j (adj s q)) (put_edges p lp s)) r =
               if decide (r = q) then swap_pop j (adj s q)
               else if decide (r = p) then lp else adj s r) as Hadj.
  { intros r. destruct (decide (r = q)) as [->|Hrq].
    - rewrite put_edges_adj_eq by done. done.
    - rewrite put_edges_adj_ne by done.
      destruct (decide (r = p)) as [->|Hrp].
      + by rewrite put_edges_adj_eq.
      + by rewrite put_edges_adj_ne. }
  split.
  - by rewrite !put_edges_eheap.
  - by rewrite !put_edges_vertices.
  - by rewrite !put_edges_gsize.
  - intros r. by rewrite !put_edges_live.
  - intros r x. rewrite Hadj, list_elem_of_singleton.
    destruct (decide (r = q)) as [->|Hrq]; [by apply swap_pop_elem_of|].
    destruct (decide (r = p)) as [->|Hrp]; [done|].
    split; [|tauto]. intros Hx. split; [done|]. intros ->.
    apply Hends in Hx. by destruct Hx.
  - intros r. rewrite Hadj.
    destruct (decide (r = q)) as [->|Hrq]; [by eapply swap_pop_NoDup|].
    destruct (decide (r = p)) as [->|Hrp]; done.
  - intros r Hr. assert (e ∉ adj s r) as Her by (apply Hr; by left).
    rewrite !put_edges_other; [done|intros ->; done|intros ->; done].
Qed.

End Invariants.

(** * What each member function does to a well-formed state *)

Section Operations.

Context {Key : Type} `{Countable Key}.
Context {V E : Type}.

Abbreviation State := (State Key V E).
Abbreviation M := (M Key V E).

Implicit Types s : State.
Implicit Types p q r : positive.
Implicit Types e x : positive.
Implicit Types l D : list positive.

Lemma fresh_vertex_dead s : vheap s !! fresh (dom (vheap s)) = None.
Proof. apply not_elem_of_dom, is_fresh. Qed.

Lemma fresh_edge_dead s : eheap s !! fresh (dom (eheap s)) = None.
Proof. apply not_elem_of_dom, is_fresh. Qed.

(** ** addVertex *)

Lemma addVertex_run s key data :
  addVertex key data s =
    Return tt
      (mkState (<[fresh (dom (vheap s)) := mkVertex [] data]> (vheap s))
         (eheap s) (size_t_wrap (gsize s + 1))
         (match vertices s !! key with
          | Some _ => vertices s
          | None => <[key := fresh (dom (vheap s))]> (vertices s)
          end)).
Proof. reflexivity. Qed.

Lemma addVertex_adj s key data s' q :
  addVertex key data s = Return tt s' → adj s' q = adj s q.
Proof.
  rewrite addVertex_run. intros [= <-]. unfold adj. simpl.
  destruct (decide (fresh (dom (vheap s)) = q)) as [<-|Hne].
  - by rewrite lookup_insert_eq, fresh_vertex_dead.
  - by rewrite lookup_insert_ne.
Qed.

Lemma addVertex_wf s key data s' :
  wf s → addVertex key data s = Return tt s' → wf s'.
Proof.
  intros Hwf Hrun.
  pose proof (λ q, addVertex_adj s key data s' q Hrun) as Hadj.
  rewrite addVertex_run in Hrun. injection Hrun as <-.
  pose proof (wf_store s Hwf) as Hst.
  pose proof (fresh_vertex_dead s) as Hfresh.
  set (p0 := fresh (dom (vheap s))) in *.
  assert (∀ k p, vertices s !! k = Some p → p ≠ p0) as Hold.
  { intros k p Hk ->. destruct (ok_live s Hst k p0 Hk) as [? ?]. congruence. }
  split; [split| | | |].
  - intros k p. simpl. destruct (vertices s !! key) eqn:Hkey.
    + intros Hk. rewrite lookup_insert_ne by (symmetry; by eapply Hold).
      by eapply ok_live.
    + destruct (decide (key = k)) as [->|Hne].
      * rewrite lookup_insert_eq. intros [= <-]. rewrite lookup_insert_eq. eauto.
      * rewrite lookup_insert_ne by done. intros Hk.
        rewrite lookup_insert_ne by (symmetry; by eapply Hold).
        by eapply ok_live.
  - intros k k' p. simpl. destruct (vertices s !! key) eqn:Hkey.
    + by eapply ok_inj.
    + destruct (decide (key = k)) as [Hk|Hne], (decide (key = k')) as [Hk'|Hne'];
        subst; rewrite ?lookup_insert_eq, ?lookup_insert_ne by done.
      * done.
      * intros [= <-] Hk'. by apply Hold in Hk'.
      * intros Hk [= <-]. by apply Hold in Hk.
      * by eapply ok_inj.
  - intros p. rewrite Hadj. by apply ok_nodup.
  - intros p x. rewrite Hadj. intros Hx.
    destruct (ok_owned s Hst p x Hx) as [k Hk]. exists k. simpl.
    destruct (vertices s !! key) eqn:Hkey; [done|].
    rewrite lookup_insert_ne; [done|]. intros ->. congruence.
  - intros p x. rewrite Hadj. by apply (wf_incident s Hwf).
  - intros p x ed. rewrite !Hadj. by apply (wf_both s Hwf).
  - by apply (wf_noloop s Hwf).
  - apply inv_keys_any.
Qed.

(** ** addEdge *)

Lemma addEdge_run s k0 k1 d :
  store_ok s →
  match addEdge k0 k1 d s with
  | Return _ s' =>
      ∃ v0 v1, k0 ≠ k1 ∧ vertices s !! k0 = Some v0 ∧ vertices s !! k1 = Some v1 ∧
        v0 ≠ v1 ∧
        s' = put_edges v1 (adj s v1 ++ [fresh (dom (eheap s))])
               (put_edges v0 (adj s v0 ++ [fresh (dom (eheap s))])
                  (mkState (vheap s)
                     (<[fresh (dom (eheap s)) := mkEdge (v0, v1) d]> (eheap s))
                     (gsize s) (vertices s)))
  | Halt f s' =>
      s' = s ∧ (f = AssertionFailed ∧ k0 = k1 ∨
                f = OutOfRange ∧ k0 ≠ k1 ∧
                  (vertices s !! k0 = None ∨ vertices s !! k1 = None))
  end.
Proof.
  intros Hst. unfold addEdge. rewrite bind_run. unfold assert.
  case_bool_decide as Hk; simpl.
  2: { split; [done|]. left. split; [done|]. by destruct (decide (k0 = k1)). }
  rewrite bind_run.
  destruct (vertices s !! k0) as [v0|] eqn:Hk0.
  2: { rewrite at_run_None by done. split; [done|]. right. tauto. }
  rewrite (at_run _ _ _ Hk0), bind_run.
  destruct (vertices s !! k1) as [v1|] eqn:Hk1.
  2: { rewrite at_run_None by done. split; [done|]. right. tauto. }
  rewrite (at_run _ _ _ Hk1), bind_run. unfold new_edge at 1.
  set (e := fresh (dom (eheap s))).
  set (s0 := mkState (vheap s) (<[e := mkEdge (v0, v1) d]> (eheap s)) (gsize s) (vertices s)).
  assert (v0 ≠ v1) as Hne by (intros ->; by apply Hk, (ok_inj s Hst k0 k1 v1)).
  assert (is_Some (vheap s0 !! v0)) as Hl0 by exact (ok_live s Hst k0 v0 Hk0).
  assert (is_Some (vheap s0 !! v1)) as Hl1 by exact (ok_live s Hst k1 v1 Hk1).
  rewrite bind_run, get_edges_run by done.
  rewrite bind_run, set_edges_run by done.
  rewrite bind_run, get_edges_run by by apply put_edges_live.
  rewrite set_edges_run by by apply put_edges_live.
  exists v0, v1. do 4 (split; [done|]).
  by rewrite put_edges_adj_ne.
Qed.

Lemma addEdge_linked s k0 k1 d s' :
  store_ok s → addEdge k0 k1 d s = Return tt s' →
  ∃ v0 v1, k0 ≠ k1 ∧ vertices s !! k0 = Some v0 ∧ vertices s !! k1 = Some v1 ∧
    v0 ≠ v1 ∧ linked (fresh (dom (eheap s))) v0 v1 d s s'.
Proof.
  intros Hst Hrun. pose proof (addEdge_run s k0 k1 d Hst) as Hspec.
  rewrite Hrun in Hspec. destruct Hspec as (v0 & v1 & Hk & Hk0 & Hk1 & Hne & ->).
  exists v0, v1. do 4 (split; [done|]).
  set (e := fresh (dom (eheap s))).
  set (s0 := mkState (vheap s) (<[e := mkEdge (v0, v1) d]> (eheap s)) (gsize s) (vertices s)).
  assert (is_Some (vheap s0 !! v0)) as Hl0 by exact (ok_live s Hst k0 v0 Hk0).
  assert (is_Some (vheap s0 !! v1)) as Hl1 by exact (ok_live s Hst k1 v1 Hk1).
  split.
  - apply fresh_edge_dead.
  - by rewrite !put_edges_eheap.
  - by rewrite !put_edges_vertices.
  - by rewrite !put_edges_gsize.
  - intros p. by rewrite !put_edges_live.
  - intros p. case_bool_decide as Hp.
    + destruct (decide (p = v1)) as [->|Hp1].
      * rewrite put_edges_adj_eq by by apply put_edges_live. done.
      * destruct Hp as [->|?]; [|done].
        rewrite put_edges_adj_ne by done. by rewrite put_edges_adj_eq.
    + rewrite !put_edges_adj_ne; [done|intros ->; apply Hp; by left|intros ->; apply Hp; by right].
  - intros p Hp0 Hp1. by rewrite !put_edges_other.
Qed.

Lemma linked_unlisted s s' e v0 v1 d p :
  inv_incident s → linked e v0 v1 d s s' → e ∉ adj s p.
Proof.
  intros Hinc Hl Hin. destruct (Hinc p e Hin) as (ed & Hed & _).
  rewrite (lk_fresh _ _ _ _ _ _ Hl) in Hed. done.
Qed.

Lemma linked_wf s s' e v0 v1 d :
  wf s → v0 ≠ v1 →
  (∃ k, vertices s !! k = Some v0) → (∃ k, vertices s !! k = Some v1) →
  linked e v0 v1 d s s' → wf s'.
Proof.
  intros Hwf Hne Hv0 Hv1 Hl.
  pose proof (λ p, linked_unlisted s s' e v0 v1 d p (wf_incident s Hwf) Hl) as Hun.
  destruct Hl as [Hfr He Hv Hg Hlive Hadj Hkeep].
  pose proof (wf_store s Hwf) as Hst.
  assert (∀ p x, x ∈ adj s' p ↔ x ∈ adj s p ∨ (x = e ∧ (p = v0 ∨ p = v1))) as Hin.
  { intros p x. rewrite Hadj. case_bool_decide.
    - rewrite elem_of_app, list_elem_of_singleton. tauto.
    - tauto. }
  split; [split| | | |].
  - intros k p Hkp. rewrite Hv in Hkp. apply Hlive. by eapply ok_live.
  - intros k k' p. rewrite Hv. by eapply ok_inj.
  - intros p. rewrite Hadj. case_bool_decide; [|by apply ok_nodup].
    apply NoDup_app. split; [by apply ok_nodup|]. split; [|apply NoDup_singleton].
    intros x Hx ->%list_elem_of_singleton. by apply (Hun p).
  - intros p x. rewrite Hin, Hv. intros [Hx|[_ [->| ->]]]; [|done|done].
    by eapply ok_owned.
  - intros p x. rewrite Hin, He. intros [Hx|[-> Hp]].
    + destruct (wf_incident s Hwf p x Hx) as (ed & Hed & Hends).
      exists ed. split; [|done]. rewrite lookup_insert_ne; [done|].
      intros ->. congruence.
    + exists (mkEdge (v0, v1) d). by rewrite lookup_insert_eq.
  - intros p x ed. rewrite !Hin, He. intros [Hx|[-> Hp]].
    + rewrite lookup_insert_ne by (intros ->; by apply (Hun p)).
      intros Hed. destruct (wf_both s Hwf p x ed Hx Hed). tauto.
    + rewrite lookup_insert_eq. intros [= <-]. simpl. tauto.
  - intros x ed. rewrite He. destruct (decide (e = x)) as [->|Hx].
    + rewrite lookup_insert_eq. by intros [= <-].
    + rewrite lookup_insert_ne by done. by apply (wf_noloop s Hwf).
  - apply inv_keys_any.
Qed.

Lemma addEdge_wf s k0 k1 d s' :
  wf s → addEdge k0 k1 d s = Return tt s' → wf s'.
Proof.
  intros Hwf Hrun.
  destruct (addEdge_linked s k0 k1 d s' (wf_store s Hwf) Hrun)
    as (v0 & v1 & _ & Hk0 & Hk1 & Hne & Hl).
  eapply linked_wf; eauto.
Qed.

(** ** getVertex, getEdge, getKey, getSize *)

Lemma incident_spec s v e :
  incident s v e ↔
  ∃ ed, eheap s !! e = Some ed ∧ ((evertices ed).1 = v ∨ (evertices ed).2 = v).
Proof.
  unfold incident, touches. destruct (eheap s !! e) as [ed|]; simpl.
  - rewrite orb_True, !bool_decide_spec. split; [by exists ed|].
    by intros (? & [= <-] & ?).
  - split; [done|]. by intros (? & ? & _).
Qed.

Lemma getVertex_run s key :
  getVertex key s = match vertices s !! key with
                    | Some p => Return p s
                    | None => Halt OutOfRange s
                    end.
Proof. reflexivity. Qed.

Lemma getSize_run s : getSize s = Return (gsize s) s.
Proof. reflexivity. Qed.

Lemma getEdge_run s k0 k1 :
  wf s →
  match getEdge k0 k1 s with
  | Return e s' =>
      s' = s ∧ k0 ≠ k1 ∧
      ∃ v0 v1 i, vertices s !! k0 = Some v0 ∧ vertices s !! k1 = Some v1 ∧
        list_find (λ x, incident s v1 x) (adj s v0) = Some (i, e)
  | Halt f s' =>
      s' = s ∧
      (f = AssertionFailed ∧
         (k0 = k1 ∨ ∃ v0 v1, vertices s !! k0 = Some v0 ∧ vertices s !! k1 = Some v1 ∧
                      list_find (λ x, incident s v1 x) (adj s v0) = None) ∨
       f = OutOfRange ∧ k0 ≠ k1 ∧
         (vertices s !! k0 = None ∨ vertices s !! k1 = None))
  end.
Proof.
  intros Hwf. pose proof (wf_store s Hwf) as Hst.
  unfold getEdge. rewrite bind_run. unfold assert.
  case_bool_decide as Hk; simpl.
  2: { split; [done|]. left. split; [done|]. left. by destruct (decide (k0 = k1)). }
  rewrite bind_run.
  destruct (vertices s !! k0) as [v0|] eqn:Hk0.
  2: { rewrite at_run_None by done. split; [done|]. right. tauto. }
  rewrite (at_run _ _ _ Hk0), bind_run.
  destruct (vertices s !! k1) as [v1|] eqn:Hk1.
  2: { rewrite at_run_None by done. split; [done|]. right. tauto. }
  rewrite (at_run _ _ _ Hk1), bind_run.
  rewrite get_edges_run by by eapply ok_live.
  rewrite bind_run, scan_run by (intros; by eapply wf_edge_live).
  destruct (list_find _ (adj s v0)) as [[i e]|] eqn:Hfind; simpl.
  - split; [done|]. split; [done|]. by exists v0, v1, i.
  - split; [done|]. left. split; [done|]. right. by exists v0, v1.
Qed.

(** [getKey] on a vertex of the map: by injectivity of the map the walk
    stops at the entry of the vertex, wherever it sits in the order. *)
Lemma getKey_run s k p :
  store_ok s → vertices s !! k = Some p → getKey p s = Return k s.
Proof.
  intros Hst Hk. unfold getKey.
  destruct (list_find _ (map_to_list (vertices s))) as [[i [k' p']]|] eqn:Hfind.
  - apply list_find_Some in Hfind as (Hi & Hp & _). simpl in *. subst p'.
    apply list_elem_of_lookup_2, elem_of_map_to_list in Hi.
    by rewrite (ok_inj s Hst k k' p Hk Hi).
  - apply list_find_None in Hfind. rewrite Forall_forall in Hfind.
    exfalso. apply (Hfind (k, p)); [|done]. by apply elem_of_map_to_list.
Qed.

Lemma getKey_run_any s p :
  match getKey p s with
  | Return k s' => s' = s ∧ vertices s !! k = Some p
  | Halt f s' => s' = s ∧ f = AssertionFailed ∧ ∀ k, vertices s !! k ≠ Some p
  end.
Proof.
  unfold getKey.
  destruct (list_find _ (map_to_list (vertices s))) as [[i [k' p']]|] eqn:Hfind.
  - apply list_find_Some in Hfind as (Hi & Hp & _). simpl in *. subst p'.
    by apply list_elem_of_lookup_2, elem_of_map_to_list in Hi.
  - apply list_find_None in Hfind. rewrite Forall_forall in Hfind.
    do 2 (split; [done|]). intros k Hk.
    apply (Hfind (k, p)); [|done]. by apply elem_of_map_to_list.
Qed.

(** ** removeEdge *)

(** The edge found from [v0] towards [v1] is listed by [v1] as well. *)
Lemma found_edge_ends s v0 v1 i e :
  wf s → v0 ≠ v1 →
  list_find (λ x, incident s v1 x) (adj s v0) = Some (i, e) →
  ∃ ed, eheap s !! e = Some ed ∧ adj s v0 !! i = Some e ∧ e ∈ adj s v1 ∧
    v1 = (if bool_decide (v0 = (evertices ed).1)
          then (evertices ed).2 else (evertices ed).1).
Proof.
  intros Hwf Hne (Hi & Hinc & _)%list_find_Some.
  apply incident_spec in Hinc as (ed & Hed & Hv1).
  assert (e ∈ adj s v0) as He0 by by eapply list_elem_of_lookup_2.
  pose proof (wf_endpoints s v0 e ed Hwf He0 Hed) as Hends.
  exists ed. do 2 (split; [done|]).
  split; [apply Hends; destruct Hv1; eauto|].
  apply Hends in He0. case_bool_decide; destruct He0, Hv1; congruence.
Qed.

Lemma removeEdge_run s k0 k1 :
  wf s →
  match removeEdge k0 k1 s with
  | Return _ s' =>
      k0 ≠ k1 ∧
      ∃ v0 v1 i e j, vertices s !! k0 = Some v0 ∧ vertices s !! k1 = Some v1 ∧
        list_find (λ x, incident s v1 x) (adj s v0) = Some (i, e) ∧
        std_find e (adj s v1) = Some j ∧
        s' = put_edges v1 (swap_pop j (adj s v1))
               (put_edges v0 (swap_pop i (adj s v0)) s)
  | Halt f s' =>
      s' = s ∧
      (f = AssertionFailed ∧
         (k0 = k1 ∨ ∃ v0 v1, vertices s !! k0 = Some v0 ∧ vertices s !! k1 = Some v1 ∧
                      list_find (λ x, incident s v1 x) (adj s v0) = None) ∨
       f = OutOfRange ∧ k0 ≠ k1 ∧
         (vertices s !! k0 = None ∨ vertices s !! k1 = None))
  end.
Proof.
  intros Hwf. pose proof (wf_store s Hwf) as Hst.
  unfold removeEdge. rewrite bind_run. unfold assert.
  case_bool_decide as Hk; simpl.
  2: { split; [done|]. left. split; [done|]. left. by destruct (decide (k0 = k1)). }
  rewrite bind_run.
  destruct (vertices s !! k0) as [v0|] eqn:Hk0.
  2: { rewrite at_run_None by done. split; [done|]. right. tauto. }
  rewrite (at_run _ _ _ Hk0), bind_run.
  destruct (vertices s !! k1) as [v1|] eqn:Hk1.
  2: { rewrite at_run_None by done. split; [done|]. right. tauto. }
  rewrite (at_run _ _ _ Hk1), bind_run.
  assert (v0 ≠ v1) as Hne by (intros ->; by apply Hk, (ok_inj s Hst k0 k1 v1)).
  assert (is_Some (vheap s !! v0)) as Hl0 by by eapply ok_live.
  assert (is_Some (vheap s !! v1)) as Hl1 by by eapply ok_live.
  rewrite get_edges_run by done.
  rewrite bind_run, scan_run by (intros; by eapply wf_edge_live).
  destruct (list_find _ (adj s v0)) as [[i e]|] eqn:Hfind; simpl.
  2: { split; [done|]. left. split; [done|]. right. by exists v0, v1. }
  destruct (found_edge_ends s v0 v1 i e Hwf Hne Hfind) as (ed & Hed & Hi & He1 & Hv1).
  rewrite bind_run, set_edges_run by done.
  rewrite bind_run, get_edges_run by by apply put_edges_live.
  rewrite put_edges_adj_ne by done.
  destruct (std_find_elem_of e (adj s v1) He1) as [j Hj]. rewrite Hj.
  rewrite set_edges_run by by apply put_edges_live.
  split; [done|]. by exists v0, v1, i, e, j.
Qed.

Lemma removeEdge_detached s k0 k1 s' :
  wf s → removeEdge k0 k1 s = Return tt s' →
  ∃ v0 v1 i e, k0 ≠ k1 ∧ vertices s !! k0 = Some v0 ∧ vertices s !! k1 = Some v1 ∧
    v0 ≠ v1 ∧
    list_find (λ x, incident s v1 x) (adj s v0) = Some (i, e) ∧
    e ∈ adj s v1 ∧ (∀ p, e ∈ adj s p ↔ p = v0 ∨ p = v1) ∧
    detached [e] s s'.
Proof.
  intros Hwf Hrun. pose proof (removeEdge_run s k0 k1 Hwf) as Hspec.
  rewrite Hrun in Hspec.
  destruct Hspec as (Hk & v0 & v1 & i & e & j & Hk0 & Hk1 & Hfind & Hj & ->).
  pose proof (wf_store s Hwf) as Hst.
  assert (v0 ≠ v1) as Hne by (intros ->; by apply Hk, (ok_inj s Hst k0 k1 v1)).
  destruct (found_edge_ends s v0 v1 i e Hwf Hne Hfind) as (ed & Hed & Hi & He1 & Hv1).
  assert (e ∈ adj s v0) as He0 by by eapply list_elem_of_lookup_2.
  destruct (wf_other_end s v0 v1 e ed Hwf He0 Hed Hv1) as (_ & _ & Hends).
  exists v0, v1, i, e. do 7 (split; [done|]).
  eapply unlink_detached; eauto.
  - by apply swap_pop_perm.
  - by apply std_find_Some.
Qed.

Lemma removeEdge_wf s k0 k1 s' :
  wf s → removeEdge k0 k1 s = Return tt s' → wf s'.
Proof.
  intros Hwf Hrun.
  destruct (removeEdge_detached s k0 k1 s' Hwf Hrun) as (?&?&?&e&?&?&?&?&?&?&?&Hd).
  by eapply detached_wf.
Qed.

(** ** removeVertex *)

(** The loop: with fuel for every listed edge it runs to the end, and
    what it leaves is the state with exactly those edges taken out. *)
Lemma detach_run fuel old s :
  wf s → is_Some (vheap s !! old) → (length (adj s old) ≤ fuel)%nat →
  ∃ s', detach fuel old s = Return tt s' ∧ detached (adj s old) s s'.
Proof.
  revert s. induction fuel as [|fuel IH]; intros s Hwf Hlive Hlen.
  - exists s. destruct (adj s old) as [|] eqn:Hadj; [|simpl in Hlen; lia].
    split; [|apply detached_refl, (ok_nodup s (wf_store s Hwf))].
    simpl. rewrite bind_run, get_edges_run by done. by rewrite Hadj.
  - simpl. rewrite bind_run, get_edges_run by done.
    destruct (last (adj s old)) as [e|] eqn:Hlast.
    2: { apply last_None in Hlast. rewrite Hlast. exists s.
         split; [done|]. apply detached_refl, (ok_nodup s (wf_store s Hwf)). }
    assert (e ∈ adj s old) as He by by eapply last_Some_elem_of.
    destruct (wf_incident s Hwf old e He) as (ed & Hed & _).
    rewrite bind_run, (get_evertices_run _ _ _ Hed).
    set (q := if bool_decide (old = (evertices ed).1)
              then (evertices ed).2 else (evertices ed).1).
    destruct (wf_other_end s old q e ed Hwf He Hed eq_refl) as (Hoq & Heq & Hends).
    rewrite bind_run, set_edges_run by done.
    rewrite bind_run, get_edges_run
      by (apply put_edges_live; by eapply adj_elem_live).
    rewrite put_edges_adj_ne by done.
    destruct (std_find_elem_of e (adj s q) Heq) as [j Hj]. rewrite Hj.
    rewrite bind_run, set_edges_run
      by (apply put_edges_live; by eapply adj_elem_live).
    set (s1 := put_edges q (swap_pop j (adj s q)) (put_edges old (pop_back (adj s old)) s)).
    assert (detached [e] s s1) as Hd1.
    { eapply unlink_detached; eauto.
      - by apply pop_back_last_perm.
      - by apply std_find_Some. }
    assert (adj s1 old = pop_back (adj s old)) as Hold.
    { unfold s1. rewrite put_edges_adj_ne by done. by rewrite put_edges_adj_eq. }
    destruct (IH s1) as (s' & Hrun & Hd2).
    + by eapply detached_wf.
    + by apply (dt_live _ _ _ Hd1).
    + rewrite Hold, pop_back_length. lia.
    + exists s'. split; [done|].
      eapply detached_trans; [|exact Hd1|exact Hd2].
      intros x. rewrite Hold, list_elem_of_singleton.
      assert (x ∈ adj s old ↔ x ∈ e :: pop_back (adj s old)) as ->
        by (by rewrite pop_back_last_perm).
      by rewrite elem_of_cons.
Qed.

Lemma removeVertex_run s key :
  wf s →
  match removeVertex key s with
  | Return _ s' =>
      ∃ old s1, vertices s !! key = Some old ∧
        detached (adj s old) s s1 ∧
        s' = mkState (vheap s1) (eheap s1) (size_t_wrap (gsize s1 - 1))
                     (delete key (vertices s1))
  | Halt f s' => s' = s ∧ f = OutOfRange ∧ vertices s !! key = None
  end.
Proof.
  intros Hwf. unfold removeVertex. rewrite bind_run.
  destruct (vertices s !! key) as [old|] eqn:Hk.
  2: { by rewrite at_run_None. }
  rewrite (at_run _ _ _ Hk).
  assert (is_Some (vheap s !! old)) as Hlive
    by exact (ok_live s (wf_store s Hwf) key old Hk).
  rewrite bind_run, get_edges_run by done.
  destruct (detach_run (length (adj s old)) old s Hwf Hlive) as (s1 & Hrun & Hd); [done|].
  rewrite bind_run, Hrun. by exists old, s1.
Qed.

Lemma removeVertex_wf s key s' :
  wf s → removeVertex key s = Return tt s' → wf s'.
Proof.
  intros Hwf Hrun. pose proof (removeVertex_run s key Hwf) as Hspec.
  rewrite Hrun in Hspec. destruct Hspec as (old & s1 & Hk & Hd & ->).
  pose proof (detached_wf _ _ _ Hwf Hd) as Hwf1.
  pose proof (wf_store s1 Hwf1) as Hst1.
  pose proof (dt_vertices _ _ _ Hd) as Hv.
  split; [split| | | |]; simpl.
  - intros k p [_ Hkp]%lookup_delete_Some. by eapply ok_live.
  - intros k k' p [_ Hkp]%lookup_delete_Some [_ Hkp']%lookup_delete_Some.
    by eapply ok_inj.
  - apply (ok_nodup s1 Hst1).
  - intros p x Hx. destruct (ok_owned s1 Hst1 p x Hx) as [k Hkp].
    exists k. apply lookup_delete_Some. split; [|done]. intros <-.
    rewrite Hv, Hk in Hkp. injection Hkp as <-.
    change (x ∈ adj s1 old) in Hx. apply (dt_adj _ _ _ Hd) in Hx. tauto.
  - apply (wf_incident s1 Hwf1).
  - apply (wf_both s1 Hwf1).
  - apply (wf_noloop s1 Hwf1).
  - apply inv_keys_any.
Qed.

End Operations.

(** * Sequences of operations *)

Section Runs.

Context {Key : Type} `{Countable Key}.
Context {V E : Type}.

Abbreviation State := (State Key V E).
Abbreviation M := (M Key V E).
Abbreviation op := (op Key V E).

Implicit Types s : State.
Implicit Types o : op.
Implicit Types ops : list op.

Lemma Graph_new_wf : wf (Graph_new : State).
Proof.
  split; [split| | | |].
  - intros k p Hk. simpl in Hk. by rewrite lookup_empty in Hk.
  - intros k k' p Hk. simpl in Hk. by rewrite lookup_empty in Hk.
  - intros p. unfold adj. simpl. rewrite lookup_empty. apply NoDup_nil_2.
  - intros p e. unfold adj. simpl. rewrite lookup_empty. by intros ?%elem_of_nil.
  - intros p e. unfold adj. simpl. rewrite lookup_empty. by intros ?%elem_of_nil.
  - intros p e ed. unfold adj. simpl. rewrite lookup_empty. by intros ?%elem_of_nil.
  - intros e ed He. simpl in He. by rewrite lookup_empty in He.
  - apply inv_keys_any.
Qed.

(** A read-only member function followed by dropping its result. *)
Lemma drop_result_run {A} (m : M A) s a s' :
  (m;; mret tt) s = Return a s' → ∃ b, m s = Return b s'.
Proof.
  rewrite bind_run. destruct (m s) as [b s1|f s1]; [|done].
  intros [= _ <-]. by exists b.
Qed.

(** What a returning operation does to the key map and the counter. *)
Lemma run_op_count s o a s' :
  wf s → run_op o s = Return a s' →
  match o with
  | AddVertex key _ =>
      vertices s' = match vertices s !! key with
                    | Some _ => vertices s
                    | None => <[key := fresh (dom (vheap s))]> (vertices s)
                    end ∧
      gsize s' = size_t_wrap (gsize s + 1)
  | RemoveVertex key =>
      is_Some (vertices s !! key) ∧
      vertices s' = delete key (vertices s) ∧
      gsize s' = size_t_wrap (gsize s - 1)
  | _ => vertices s' = vertices s ∧ gsize s' = gsize s
  end.
Proof.
  intros Hwf. destruct o as [k d|k0 k1 d|k|k0 k1|p| |k|k0 k1]; simpl.
  - rewrite addVertex_run. by intros [= _ <-].
  - destruct a. intros (v0 & v1 & _ & _ & _ & _ & Hl)%addEdge_linked;
      [|by apply wf_store].
    split; [apply (lk_vertices _ _ _ _ _ _ Hl)|apply (lk_gsize _ _ _ _ _ _ Hl)].
  - intros [b Hb]%drop_result_run. rewrite getVertex_run in Hb.
    destruct (vertices s !! k); by simplify_eq.
  - intros [b Hb]%drop_result_run. pose proof (getEdge_run s k0 k1 Hwf) as Hspec.
    rewrite Hb in Hspec. by destruct Hspec as [-> _].
  - intros [b Hb]%drop_result_run. pose proof (getKey_run_any s p) as Hspec.
    rewrite Hb in Hspec. by destruct Hspec as [-> _].
  - intros [b Hb]%drop_result_run. rewrite getSize_run in Hb. by simplify_eq.
  - destruct a. intros Hrun. pose proof (removeVertex_run s k Hwf) as Hspec.
    rewrite Hrun in Hspec. destruct Hspec as (old & s1 & Hk & Hd & ->). simpl.
    rewrite (dt_vertices _ _ _ Hd), (dt_gsize _ _ _ Hd). eauto.
  - destruct a. intros (?&?&?&?&?&?&?&?&?&?&?&Hd)%removeEdge_detached; [|done].
    split; [apply (dt_vertices _ _ _ Hd)|apply (dt_gsize _ _ _ Hd)].
Qed.

Lemma run_op_wf s o a s' : wf s → run_op o s = Return a s' → wf s'.
Proof.
  intros Hwf. destruct o as [k d|k0 k1 d|k|k0 k1|p| |k|k0 k1]; simpl.
  - destruct a. by apply addVertex_wf.
  - destruct a. by apply addEdge_wf.
  - intros [b Hb]%drop_result_run. rewrite getVertex_run in Hb.
    destruct (vertices s !! k); by simplify_eq.
  - intros [b Hb]%drop_result_run. pose proof (getEdge_run s k0 k1 Hwf) as Hspec.
    rewrite Hb in Hspec. by destruct Hspec as [-> _].
  - intros [b Hb]%drop_result_run. pose proof (getKey_run_any s p) as Hspec.
    rewrite Hb in Hspec. by destruct Hspec as [-> _].
  - intros [b Hb]%drop_result_run. rewrite getSize_run in Hb. by simplify_eq.
  - destruct a. by apply removeVertex_wf.
  - destruct a. by apply removeEdge_wf.
Qed.

Lemma exec_cons o ops s :
  exec (o :: ops) s = match run_op o s with
                      | Return _ s1 => exec ops s1
                      | Halt f s1 => Halt f s1
                      end.
Proof. reflexivity. Qed.

Lemma exec_app ops1 ops2 s s' :
  exec (ops1 ++ ops2) s = Return tt s' ↔
  ∃ s1, exec ops1 s = Return tt s1 ∧ exec ops2 s1 = Return tt s'.
Proof.
  revert s. induction ops1 as [|o ops1 IH]; intros s.
  - simpl. split; [by exists s|]. by intros (s1 & [= <-] & ?).
  - rewrite <- app_comm_cons, !exec_cons.
    destruct (run_op o s) as [[] s1|f s1]; [apply IH|].
    split; [done|]. by intros (? & ? & ?).
Qed.

Lemma exec_wf ops s s' : wf s → exec ops s = Return tt s' → wf s'.
Proof.
  revert s. induction ops as [|o ops IH]; intros s Hwf.
  - by intros [= <-].
  - rewrite exec_cons. destruct (run_op o s) as [a s1|f s1] eqn:Hrun; [|done].
    apply IH. by eapply run_op_wf.
Qed.

Lemma reachable_wf s : reachable s → wf s.
Proof. intros [ops Hops]. eapply exec_wf; [apply Graph_new_wf|done]. Qed.

Lemma reachable_step s o a s' :
  reachable s → run_op o s = Return a s' → reachable s'.
Proof.
  intros [ops Hops] Hrun. exists (ops ++ [o]). apply exec_app.
  exists s. split; [done|]. rewrite exec_cons, Hrun. done.
Qed.

End Runs.

(** * The properties of the specification *)

Section Properties.

Context {Key : Type} `{Countable Key}.
Context {V E : Type}.

Abbreviation State := (State Key V E).
Abbreviation M := (M Key V E).
Abbreviation op := (op Key V E).

Implicit Types s : State.
Implicit Types o : op.
Implicit Types ops : list op.

(** From [s] to [s'] every address of the store keeps its vertex, with
    its payload, and its edge. *)
Abbreviation store_kept s s' :=
  ((∀ p v, vheap s !! p = Some v →
      ∃ v', vheap s' !! p = Some v' ∧ vdata v' = vdata v) ∧
   (∀ e ed, eheap s !! e = Some ed → eheap s' !! e = Some ed)).

Lemma listers_spec s e p : p ∈ listers s e ↔ e ∈ adj s p.
Proof.
  unfold listers, adj. rewrite elem_of_dom. unfold is_Some.
  setoid_rewrite map_lookup_filter_Some. simpl.
  destruct (vheap s !! p) as [v|].
  - split; [by intros (? & [= <-] & ?)|]. intros ?. by exists v.
  - split; [by intros (? & ? & ?)|]. by intros ?%elem_of_nil.
Qed.

Lemma listers_empty s e : listers s e = ∅ ↔ ∀ p, e ∉ adj s p.
Proof.
  split.
  - intros He p Hp. apply listers_spec in Hp. rewrite He in Hp. set_solver.
  - intros He. apply set_eq. intros p. rewrite listers_spec. set_solver.
Qed.

Lemma listers_pair s e v0 v1 :
  (∀ p, e ∈ adj s p ↔ p = v0 ∨ p = v1) → listers s e = {[v0; v1]}.
Proof.
  intros He. apply set_eq. intros p.
  rewrite listers_spec, He, elem_of_union, !elem_of_singleton. done.
Qed.

Lemma linked_incident_old s s' e v0 v1 d v x :
  linked e v0 v1 d s s' → x ≠ e → incident s' v x = incident s v x.
Proof.
  intros Hl Hx. unfold incident. rewrite (lk_eheap _ _ _ _ _ _ Hl).
  by rewrite lookup_insert_ne.
Qed.

(** A listed edge between the two vertices makes [getEdge] return the
    first such edge of the first vertex's sequence. *)
Lemma getEdge_finds s k0 k1 v0 v1 e :
  wf s → k0 ≠ k1 → vertices s !! k0 = Some v0 → vertices s !! k1 = Some v1 →
  e ∈ adj s v0 → incident s v1 e →
  ∃ i e0 ed0, getEdge k0 k1 s = Return e0 s ∧
    list_find (λ x, incident s v1 x) (adj s v0) = Some (i, e0) ∧
    eheap s !! e0 = Some ed0 ∧
    (evertices ed0 = (v0, v1) ∨ evertices ed0 = (v1, v0)).
Proof.
  intros Hwf Hk Hk0 Hk1 He Hinc.
  assert (v0 ≠ v1) as Hne
    by (intros ->; by apply Hk, (ok_inj s (wf_store s Hwf) k0 k1 v1)).
  pose proof (getEdge_run s k0 k1 Hwf) as Hspec.
  destruct (getEdge k0 k1 s) as [e0 s1|f s1].
  - destruct Hspec as (-> & _ & v0' & v1' & i & Hk0' & Hk1' & Hfind). simplify_eq.
    destruct (found_edge_ends s v0 v1 i e0 Hwf Hne Hfind) as (ed0 & Hed0 & Hi & _ & Hv1).
    exists i, e0, ed0. do 3 (split; [done|]).
    apply list_elem_of_lookup_2 in Hi.
    destruct (wf_incident s Hwf v0 e0 Hi) as (ed & Hed & Hends).
    rewrite Hed0 in Hed. injection Hed as <-.
    destruct (evertices ed0) as [a b]. simpl in *.
    case_bool_decide; destruct Hends; simplify_eq; eauto.
  - exfalso. destruct Hspec as (_ & [(_ & [?|Hnone])|(_ & _ & [?|?])]); try congruence.
    destruct Hnone as (v0' & v1' & ? & ? & Hnone). simplify_eq.
    apply list_find_None in Hnone. rewrite Forall_forall in Hnone. by eapply Hnone.
Qed.

Lemma find_snoc_new {A} (P : A → Prop) `{∀ x, Decision (P x)} (l : list A) e i x :
  (∀ y, y ∈ l → ¬ P y) → list_find P (l ++ [e]) = Some (i, x) → x = e.
Proof.
  intros Hno [Hl|(_ & _ & Hr)]%list_find_app_Some.
  - apply list_find_Some in Hl as (Hi & HP & _).
    exfalso. eapply Hno; [|done]. by eapply list_elem_of_lookup_2.
  - apply list_find_Some in Hr as (Hi & _ & _).
    apply list_elem_of_lookup_2 in Hi. by apply list_elem_of_singleton in Hi.
Qed.

Lemma edge_set_spec s x :
  x ∈ edge_set s ↔ ∃ k p, vertices s !! k = Some p ∧ x ∈ adj s p.
Proof.
  unfold edge_set. rewrite elem_of_union_list. split.
  - intros (X & HX & Hx). apply list_elem_of_fmap in HX as ([k p] & -> & Hkp).
    apply elem_of_map_to_list in Hkp. apply elem_of_list_to_set in Hx. eauto.
  - intros (k & p & Hkp & Hx). exists (list_to_set (adj s p)).
    split; [|by apply elem_of_list_to_set].
    apply list_elem_of_fmap. exists (k, p). split; [done|].
    by apply elem_of_map_to_list.
Qed.

(** ** The counter *)

Lemma size_t_wrap_small z : 0 ≤ z < size_t_modulus → size_t_wrap z = z.
Proof. apply Z.mod_small. Qed.

(** Whatever the operation, the counter stays at or above the number of
    entries as long as it cannot wrap. *)
Lemma run_op_count_le s o a s' :
  wf s → run_op o s = Return a s' →
  Z.of_nat (size (vertices s)) ≤ gsize s → gsize s + 1 < size_t_modulus →
  Z.of_nat (size (vertices s')) ≤ gsize s' ∧ gsize s' ≤ gsize s + 1.
Proof.
  intros Hwf Hrun Hle Hmax. pose proof (run_op_count s o a s' Hwf Hrun) as Hc.
  destruct o; try (destruct Hc as [-> ->]; lia).
  - destruct Hc as [-> ->]. rewrite size_t_wrap_small by lia.
    destruct (vertices s !! key) eqn:Hk; [lia|].
    rewrite map_size_insert_None by done. lia.
  - destruct Hc as (Hk & -> & ->).
    pose proof (map_size_ne_0_lookup_2 _ _ Hk).
    rewrite map_size_delete_Some by done.
    rewrite size_t_wrap_small by lia. lia.
Qed.

(** With its precondition, an operation keeps counter and number of
    entries equal. *)
Lemma run_op_count_eq s o a s' :
  wf s → run_op o s = Return a s' → precondition o s →
  inv_count s → gsize s + 1 < size_t_modulus → inv_count s'.
Proof.
  unfold inv_count. intros Hwf Hrun Hpre Heq Hmax.
  pose proof (run_op_count s o a s' Hwf Hrun) as Hc.
  destruct o; try (destruct Hc as [-> ->]; lia).
  - destruct Hc as [-> ->]. simpl in Hpre. rewrite Hpre.
    rewrite size_t_wrap_small by lia.
    rewrite map_size_insert_None by done. lia.
  - destruct Hc as (Hk & -> & ->).
    pose proof (map_size_ne_0_lookup_2 _ _ Hk).
    rewrite map_size_delete_Some by done.
    rewrite size_t_wrap_small by lia. lia.
Qed.

Lemma exec_count_le ops s s' :
  wf s → exec ops s = Return tt s' →
  Z.of_nat (size (vertices s)) ≤ gsize s →
  gsize s + Z.of_nat (length ops) < size_t_modulus →
  Z.of_nat (size (vertices s')) ≤ gsize s' ∧
  gsize s' ≤ gsize s + Z.of_nat (length ops).
Proof.
  revert s. induction ops as [|o ops IH]; intros s Hwf Hrun Hle Hmax.
  - injection Hrun as <-. simpl. lia.
  - rewrite exec_cons in Hrun.
    destruct (run_op o s) as [a s1|f s1] eqn:Hop; [|done].
    simpl length in *.
    destruct (run_op_count_le s o a s1 Hwf Hop Hle) as [Hle1 Hstep]; [lia|].
    destruct (IH s1) as [? ?]; [by eapply run_op_wf|done|done|lia|].
    split; [done|lia].
Qed.

Lemma exec_count_eq ops s s' :
  wf s → exec ops s = Return tt s' → lawful ops s →
  inv_count s → gsize s + Z.of_nat (length ops) < size_t_modulus →
  inv_count s'.
Proof.
  revert s. induction ops as [|o ops IH]; intros s Hwf Hrun Hlaw Heq Hmax.
  - by injection Hrun as <-.
  - rewrite exec_cons in Hrun. destruct Hlaw as [Hpre Hlaw].
    destruct (run_op o s) as [a s1|f s1] eqn:Hop; [|done].
    simpl length in *.
    assert (inv_count s1) as Heq1 by (eapply run_op_count_eq; eauto; lia).
    destruct (run_op_count_le s o a s1 Hwf Hop) as [_ Hstep];
      [unfold inv_count in Heq; lia|lia|].
    apply (IH s1); [by eapply run_op_wf|done|done|done|lia].
Qed.

Lemma lawful_app ops1 ops2 s : lawful (ops1 ++ ops2) s → lawful ops1 s.
Proof.
  revert s. induction ops1 as [|o ops1 IH]; intros s; [done|].
  simpl. intros [Hpre Hrest]. split; [done|].
  destruct (run_op o s) as [a s1|f s1]; [by apply IH|done].
Qed.

Lemma add_vertices_run (kds : list (Key * V)) s :
  NoDup kds.*1 → (∀ k, k ∈ kds.*1 → vertices s !! k = None) →
  0 ≤ gsize s → gsize s + Z.of_nat (length kds) < size_t_modulus →
  ∃ s', exec ((λ kd, AddVertex kd.1 kd.2) <$> kds) s = Return tt s' ∧
        gsize s' = gsize s + Z.of_nat (length kds) ∧
        size (vertices s') = (size (vertices s) + length kds)%nat.
Proof.
  revert s. induction kds as [|[k d] kds IH]; intros s Hnd Hnew Hpos Hmax.
  - exists s. simpl. split; [done|]. split; lia.
  - rewrite fmap_cons in Hnd. apply NoDup_cons in Hnd as [Hk Hnd].
    rewrite fmap_cons, exec_cons. simpl run_op. rewrite addVertex_run.
    rewrite (Hnew k) by (rewrite fmap_cons; by left).
    simpl length in *.
    destruct (IH (mkState (<[fresh (dom (vheap s)) := mkVertex [] d]> (vheap s))
                    (eheap s) (size_t_wrap (gsize s + 1))
                    (<[k := fresh (dom (vheap s))]> (vertices s))))
      as (s' & Hrun & Hsize & Hcard); simpl.
    + done.
    + intros k' Hk'. rewrite lookup_insert_ne by (intros ->; done).
      apply Hnew. rewrite fmap_cons. by right.
    + rewrite size_t_wrap_small by lia. lia.
    + rewrite size_t_wrap_small by lia. lia.
    + exists s'. split; [done|]. simpl in Hsize, Hcard.
      rewrite size_t_wrap_small in Hsize by lia.
      rewrite map_size_insert_None in Hcard by (apply Hnew; rewrite fmap_cons; by left).
      split; lia.
Qed.

(** ** Faults *)

Lemma drop_result_halt {A} (m : M A) s f s' :
  (m;; mret tt) s = Halt f s' → m s = Halt f s'.
Proof.
  rewrite bind_run. destruct (m s); [by intros [=]|]. by intros [= -> ->].
Qed.

(** On a well-formed state an operation that stops has stopped at an
    assertion or at a missing key, and has written nothing. *)
Lemma run_op_halt s o f s' :
  wf s → run_op o s = Halt f s' →
  s' = s ∧ (f = AssertionFailed ∨ f = OutOfRange).
Proof.
  intros Hwf. destruct o as [k d|k0 k1 d|k|k0 k1|p| |k|k0 k1]; simpl.
  - by rewrite addVertex_run.
  - intros Hrun. pose proof (addEdge_run s k0 k1 d (wf_store s Hwf)) as Hspec.
    rewrite Hrun in Hspec. destruct Hspec as (-> & [[? _]|[? _]]); eauto.
  - intros Hrun%drop_result_halt. rewrite getVertex_run in Hrun.
    destruct (vertices s !! k); simplify_eq. eauto.
  - intros Hrun%drop_result_halt. pose proof (getEdge_run s k0 k1 Hwf) as Hspec.
    rewrite Hrun in Hspec. destruct Hspec as (-> & [[? _]|[? _]]); eauto.
  - intros Hrun%drop_result_halt. pose proof (getKey_run_any s p) as Hspec.
    rewrite Hrun in Hspec. destruct Hspec as (-> & ? & _); eauto.
  - intros Hrun%drop_result_halt. by rewrite getSize_run in Hrun.
  - intros Hrun. pose proof (removeVertex_run s k Hwf) as Hspec.
    rewrite Hrun in Hspec. destruct Hspec as (-> & ? & _); eauto.
  - intros Hrun. pose proof (removeEdge_run s k0 k1 Hwf) as Hspec.
    rewrite Hrun in Hspec. destruct Hspec as (-> & [[? _]|[? _]]); eauto.
Qed.

(** ** The fuel of the loop is always enough *)

Lemma get_edges_dead s p : vheap s !! p = None → get_edges p s = Halt Dangling s.
Proof. intros Hp. unfold get_edges. by rewrite Hp. Qed.

Lemma set_edges_dead s p l : vheap s !! p = None → set_edges p l s = Halt Dangling s.
Proof. intros Hp. unfold set_edges. by rewrite Hp. Qed.

Lemma get_evertices_dead s e : eheap s !! e = None → get_evertices e s = Halt Dangling s.
Proof. intros He. unfold get_evertices. by rewrite He. Qed.

Lemma swap_pop_length_le i (l : list positive) :
  (length (swap_pop i l) ≤ length l)%nat.
Proof.
  unfold swap_pop. destruct (last l); [|done].
  rewrite pop_back_length, length_insert. lia.
Qed.

(** Every round of the loop shortens the sequence of the vertex being
    removed, in any state: the bound on the number of rounds is never
    what stops the loop. *)
Lemma detach_fuel_enough fuel old s f s' :
  (length (adj s old) ≤ fuel)%nat → detach fuel old s = Halt f s' → f ≠ OutOfFuel.
Proof.
  revert s. induction fuel as [|fuel IH]; intros s Hlen.
  - simpl. rewrite bind_run.
    destruct (vheap s !! old) as [v|] eqn:Hold.
    2: { rewrite get_edges_dead by done. by intros [= <- _]. }
    rewrite get_edges_run by eauto.
    destruct (adj s old); [done|simpl in Hlen; lia].
  - simpl. rewrite bind_run.
    destruct (vheap s !! old) as [v|] eqn:Hold.
    2: { rewrite get_edges_dead by done. by intros [= <- _]. }
    rewrite get_edges_run by eauto.
    destruct (last (adj s old)) as [e|] eqn:Hlast; [|done].
    rewrite bind_run.
    destruct (eheap s !! e) as [ed|] eqn:Hed.
    2: { rewrite get_evertices_dead by done. by intros [= <- _]. }
    rewrite (get_evertices_run _ _ _ Hed).
    set (q := if bool_decide (old = (evertices ed).1)
              then (evertices ed).2 else (evertices ed).1).
    rewrite bind_run, set_edges_run by eauto.
    set (s1 := put_edges old (pop_back (adj s old)) s).
    assert (adj s1 old = pop_back (adj s old)) as Hadj1
      by (apply put_edges_adj_eq; by exists v).
    assert (length (adj s old) ≠ 0%nat) as Hnz.
    { intros Hz%nil_length_inv. by rewrite Hz in Hlast. }
    rewrite bind_run.
    destruct (vheap s1 !! q) as [vq|] eqn:Hq.
    2: { rewrite get_edges_dead by done. by intros [= <- _]. }
    rewrite get_edges_run by eauto.
    destruct (std_find e (adj s1 q)) as [j|]; [|by intros [= <- _]].
    rewrite bind_run, set_edges_run by eauto.
    apply IH.
    destruct (decide (q = old)) as [Hqo|Hqo].
    + rewrite Hqo. rewrite put_edges_adj_eq by (rewrite <- Hqo; by exists vq).
      pose proof (swap_pop_length_le j (adj s1 old)) as Hsw.
      rewrite Hadj1 in *. rewrite pop_back_length in Hsw. lia.
    + rewrite put_edges_adj_ne by done. rewrite Hadj1, pop_back_length. lia.
Qed.

Lemma removeVertex_fuel_enough s key f s' :
  removeVertex key s = Halt f s' → f ≠ OutOfFuel.
Proof.
  unfold removeVertex. rewrite bind_run.
  destruct (vertices s !! key) as [old|] eqn:Hk.
  2: { rewrite at_run_None by done. by intros [= <- _]. }
  rewrite (at_run _ _ _ Hk), bind_run.
  destruct (vheap s !! old) as [v|] eqn:Hold.
  2: { rewrite get_edges_dead by done. by intros [= <- _]. }
  rewrite get_edges_run by eauto. rewrite bind_run.
  destruct (detach _ old s) as [[] s1|f1 s1] eqn:Hloop; [done|].
  intros [= <- _]. by eapply detach_fuel_enough.
Qed.

(** ** The store along a run *)

Lemma put_edges_lookup p l s q :
  vheap (put_edges p l s) !! q =
    if decide (q = p) then (λ v, mkVertex l (vdata v)) <$> vheap s !! p
    else vheap s !! q.
Proof.
  case_decide as Hq.
  - subst q. unfold put_edges. destruct (vheap s !! p) as [v|] eqn:Hp; simpl.
    + by rewrite lookup_insert_eq.
    + by rewrite Hp.
  - by apply put_edges_other.
Qed.

(** The store of the model only grows, and no member function writes a
    payload or the slots of an edge: [store_kept s s'] holds along every
    run.  The objects that the program has destroyed by then stay in the
    model's store as well, unreachable; what is stated about the program
    below is stated of vertices that are still stored at a key and of
    edges that are still listed. *)
Lemma store_kept_refl s : store_kept s s.
Proof. split; eauto. Qed.

Lemma store_kept_trans s1 s2 s3 :
  store_kept s1 s2 → store_kept s2 s3 → store_kept s1 s3.
Proof.
  intros [Hv12 He12] [Hv23 He23]. split.
  - intros p v Hp. destruct (Hv12 p v Hp) as (v' & Hp' & Hd).
    destruct (Hv23 p v' Hp') as (v'' & Hp'' & Hd'). exists v''. split; congruence.
  - eauto.
Qed.

Lemma put_edges_store p l s : store_kept s (put_edges p l s).
Proof.
  split.
  - intros q v Hq. rewrite put_edges_lookup. case_decide as Hd.
    + subst q. rewrite Hq. simpl. eauto.
    + eauto.
  - intros e ed. by rewrite put_edges_eheap.
Qed.

Lemma detach_store fuel old s s' :
  detach fuel old s = Return tt s' → store_kept s s'.
Proof.
  revert s. induction fuel as [|fuel IH]; intros s; simpl; rewrite bind_run.
  - destruct (vheap s !! old) as [v|] eqn:Hold;
      [rewrite get_edges_run by eauto|by rewrite get_edges_dead].
    destruct (last (adj s old)); [done|]. intros [= <-]. apply store_kept_refl.
  - destruct (vheap s !! old) as [v|] eqn:Hold;
      [rewrite get_edges_run by eauto|by rewrite get_edges_dead].
    destruct (last (adj s old)) as [e|]; [|intros [= <-]; apply store_kept_refl].
    rewrite bind_run.
    destruct (eheap s !! e) as [ed|] eqn:Hed;
      [rewrite (get_evertices_run _ _ _ Hed)|by rewrite get_evertices_dead].
    set (q := if bool_decide (old = (evertices ed).1)
              then (evertices ed).2 else (evertices ed).1).
    rewrite bind_run, set_edges_run by eauto.
    set (s1 := put_edges old (pop_back (adj s old)) s).
    rewrite bind_run.
    destruct (vheap s1 !! q) as [vq|] eqn:Hq;
      [rewrite get_edges_run by eauto|by rewrite get_edges_dead].
    destruct (std_find e (adj s1 q)) as [j|]; [|done].
    rewrite bind_run, set_edges_run by eauto.
    intros Hrest%IH.
    eapply store_kept_trans; [apply put_edges_store|].
    eapply store_kept_trans; [apply put_edges_store|exact Hrest].
Qed.

Lemma removeVertex_inv s k s' :
  removeVertex k s = Return tt s' →
  ∃ old s1, vertices s !! k = Some old ∧
    detach (length (adj s old)) old s = Return tt s1 ∧
    s' = mkState (vheap s1) (eheap s1) (size_t_wrap (gsize s1 - 1))
                 (delete k (vertices s1)).
Proof.
  unfold removeVertex. rewrite bind_run.
  destruct (vertices s !! k) as [old|] eqn:Hk;
    [rewrite (at_run _ _ _ Hk)|by rewrite at_run_None].
  rewrite bind_run.
  destruct (vheap s !! old) as [v|] eqn:Hold;
    [rewrite get_edges_run by eauto|by rewrite get_edges_dead].
  rewrite bind_run.
  destruct (detach _ old s) as [[] s1|f s1] eqn:Hloop; [|done].
  intros [= <-]. by exists old, s1.
Qed.

Lemma run_op_store s o a s' :
  wf s → run_op o s = Return a s' → store_kept s s'.
Proof.
  intros Hwf. pose proof (wf_store s Hwf) as Hst.
  destruct o as [k d|k0 k1 d|k|k0 k1|p| |k|k0 k1]; simpl.
  - rewrite addVertex_run. intros [= _ <-]. split; simpl; [|done].
    intros p v Hp. exists v. split; [|done].
    rewrite lookup_insert_ne; [done|]. intros <-.
    rewrite fresh_vertex_dead in Hp. done.
  - destruct a. intros Hrun. pose proof (addEdge_run s k0 k1 d Hst) as Hspec.
    rewrite Hrun in Hspec. destruct Hspec as (v0 & v1 & _ & _ & _ & _ & ->).
    eapply store_kept_trans; [|apply put_edges_store].
    eapply store_kept_trans; [|apply put_edges_store].
    split; simpl; [eauto|]. intros e ed He.
    rewrite lookup_insert_ne; [done|]. intros <-.
    rewrite fresh_edge_dead in He. done.
  - intros [b Hb]%drop_result_run. rewrite getVertex_run in Hb.
    destruct (vertices s !! k); simplify_eq. apply store_kept_refl.
  - intros [b Hb]%drop_result_run. pose proof (getEdge_run s k0 k1 Hwf) as Hspec.
    rewrite Hb in Hspec. destruct Hspec as [-> _]. apply store_kept_refl.
  - intros [b Hb]%drop_result_run. pose proof (getKey_run_any s p) as Hspec.
    rewrite Hb in Hspec. destruct Hspec as [-> _]. apply store_kept_refl.
  - intros [b Hb]%drop_result_run. rewrite getSize_run in Hb. simplify_eq.
    apply store_kept_refl.
  - destruct a. intros (old & s1 & _ & Hloop%detach_store & ->)%removeVertex_inv.
    exact Hloop.
  - destruct a. intros Hrun. pose proof (removeEdge_run s k0 k1 Hwf) as Hspec.
    rewrite Hrun in Hspec.
    destruct Hspec as (_ & v0 & v1 & i & e & j & _ & _ & _ & _ & ->).
    eapply store_kept_trans; apply put_edges_store.
Qed.

(** A vertex that is already there is never given a key: an entry of
    the map that leads to it after the operation was there before. *)
Lemma run_op_keys s o a s' k p :
  wf s → run_op o s = Return a s' →
  is_Some (vheap s !! p) → vertices s' !! k = Some p → vertices s !! k = Some p.
Proof.
  intros Hwf Hrun [v Hv]. pose proof (run_op_count s o a s' Hwf Hrun) as Hc.
  destruct o; try (destruct Hc as [-> _]; done).
  - destruct Hc as [-> _]. destruct (vertices s !! key) eqn:Hkey; [done|].
    destruct (decide (key = k)) as [->|Hne].
    + rewrite lookup_insert_eq. intros [= <-]. rewrite fresh_vertex_dead in Hv. done.
    + by rewrite lookup_insert_ne.
  - destruct Hc as (_ & -> & _). by intros [_ ?]%lookup_delete_Some.
Qed.

Lemma exec_store_keys ops s s' :
  wf s → exec ops s = Return tt s' →
  store_kept s s' ∧
  (∀ k p, is_Some (vheap s !! p) → vertices s' !! k = Some p →
          vertices s !! k = Some p).
Proof.
  revert s. induction ops as [|o ops IH]; intros s Hwf Hrun.
  - injection Hrun as <-. split; [apply store_kept_refl|done].
  - rewrite exec_cons in Hrun.
    destruct (run_op o s) as [a s1|f s1] eqn:Hop; [|done].
    pose proof (run_op_store s o a s1 Hwf Hop) as Hstep.
    destruct (IH s1) as [Hrest Hkeys]; [by eapply run_op_wf|done|].
    split; [by eapply store_kept_trans|].
    intros k p [v Hv] Hk. eapply run_op_keys; [done|exact Hop|by exists v|].
    apply Hkeys; [|done]. destruct (proj1 Hstep p v Hv) as (v' & Hv' & _). by exists v'.
Qed.

(** ** The properties, one by one *)

(** C1. In every reachable state an edge is listed by no vertex or by
    exactly its two (distinct) end vertices.  From such a state
    [addEdge] on two different keys of the map returns, with the new
    edge, listed by no vertex before, appended to the sequences of both
    end vertices and listed by exactly these two; [removeEdge] on two
    keys whose vertices an edge joins returns, with one edge that both
    listed now listed by no vertex and the listers of every other edge
    as they were; [removeVertex] on a key of the map returns, with every
    edge the vertex listed now listed by no vertex and the listers of
    every other edge as they were.  Each of the three ends in a
    reachable state again. *)
Theorem C1_edge_listed_by_both_ends_or_by_none s :
  reachable s →
  (∀ e, listers s e = ∅ ∨
        ∃ ed, eheap s !! e = Some ed ∧
              (evertices ed).1 ≠ (evertices ed).2 ∧
              listers s e = {[(evertices ed).1; (evertices ed).2]} ∧
              size (listers s e) = 2%nat) ∧
  (∀ k0 k1 v0 v1 d,
     k0 ≠ k1 → vertices s !! k0 = Some v0 → vertices s !! k1 = Some v1 →
     ∃ s' e, addEdge k0 k1 d s = Return tt s' ∧ reachable s' ∧
       listers s e = ∅ ∧
       eheap s' !! e = Some (mkEdge (v0, v1) d) ∧
       adj s' v0 = adj s v0 ++ [e] ∧ adj s' v1 = adj s v1 ++ [e] ∧
       listers s' e = {[v0; v1]} ∧ size (listers s' e) = 2%nat ∧
       (∀ x, x ≠ e → listers s' x = listers s x)) ∧
  (∀ k0 k1 v0 v1 x,
     k0 ≠ k1 → vertices s !! k0 = Some v0 → vertices s !! k1 = Some v1 →
     x ∈ adj s v0 → incident s v1 x →
     ∃ s' e, removeEdge k0 k1 s = Return tt s' ∧ reachable s' ∧
       listers s e = {[v0; v1]} ∧ size (listers s e) = 2%nat ∧
       listers s' e = ∅ ∧
       (∀ y, y ≠ e → listers s' y = listers s y)) ∧
  (∀ k old, vertices s !! k = Some old →
     ∃ s', removeVertex k s = Return tt s' ∧ reachable s' ∧
       (∀ e, e ∈ adj s old → size (listers s e) = 2%nat ∧ listers s' e = ∅) ∧
       (∀ y, y ∉ adj s old → listers s' y = listers s y)).
Proof.
  intros Hreach. pose proof (reachable_wf s Hreach) as Hwf.
  pose proof (wf_store s Hwf) as Hst.
  assert (∀ p e, e ∈ adj s p → size (listers s e) = 2%nat) as Htwo.
  { intros p e Hp. destruct (wf_incident s Hwf p e Hp) as (ed & Hed & _).
    pose proof (wf_noloop s Hwf e ed Hed) as Hloop.
    rewrite (listers_pair s e _ _ (wf_endpoints s p e ed Hwf Hp Hed)).
    rewrite size_union by set_solver. by rewrite !size_singleton. }
  split; [|split; [|split]].
  - intros e. destruct (decide (listers s e = ∅)) as [|Hne]; [by left|right].
    apply set_choose_L in Hne as [p Hp%listers_spec].
    destruct (wf_incident s Hwf p e Hp) as (ed & Hed & _).
    pose proof (wf_noloop s Hwf e ed Hed) as Hloop.
    pose proof (listers_pair s e _ _ (wf_endpoints s p e ed Hwf Hp Hed)) as Hl.
    exists ed. do 3 (split; [done|]). by eapply Htwo.
  - intros k0 k1 v0 v1 d Hk Hk0 Hk1.
    pose proof (addEdge_run s k0 k1 d Hst) as Hspec.
    destruct (addEdge k0 k1 d s) as [[] s'|f s'] eqn:Hrun.
    2: { exfalso. destruct Hspec as (_ & [[_ ?]|(_ & _ & [?|?])]); congruence. }
    clear Hspec.
    destruct (addEdge_linked s k0 k1 d s' Hst Hrun)
      as (v0' & v1' & _ & ? & ? & Hne & Hl). simplify_eq.
    pose proof (λ p, linked_unlisted s s' _ v0 v1 d p (wf_incident s Hwf) Hl) as Hun.
    set (e := fresh (dom (eheap s))) in *.
    assert (listers s' e = {[v0; v1]}) as Hpair.
    { apply listers_pair. intros p. rewrite (lk_adj _ _ _ _ _ _ Hl).
      case_bool_decide as Hp.
      - split; [done|]. intros _. apply elem_of_app. right. by left.
      - split; [|done]. intros Hin. by apply Hun in Hin. }
    exists s', e. split; [done|].
    split; [by apply (reachable_step s (AddEdge k0 k1 d) tt)|].
    split; [by apply listers_empty|].
    split; [rewrite (lk_eheap _ _ _ _ _ _ Hl); by rewrite lookup_insert_eq|].
    rewrite !(lk_adj _ _ _ _ _ _ Hl).
    rewrite !bool_decide_eq_true_2 by tauto. do 3 (split; [done|]).
    split.
    { rewrite Hpair, size_union by set_solver. by rewrite !size_singleton. }
    intros x Hx. apply set_eq. intros p.
    rewrite !listers_spec, (lk_adj _ _ _ _ _ _ Hl).
    case_bool_decide; [|done].
    rewrite elem_of_app, list_elem_of_singleton. tauto.
  - intros k0 k1 v0 v1 x Hk Hk0 Hk1 Hx Hinc.
    pose proof (removeEdge_run s k0 k1 Hwf) as Hspec.
    destruct (removeEdge k0 k1 s) as [[] s'|f s'] eqn:Hrun.
    2: { exfalso.
         destruct Hspec as (_ & [(_ & [?|Hnone])|(_ & _ & [?|?])]); try congruence.
         destruct Hnone as (v0' & v1' & ? & ? & Hnone). simplify_eq.
         apply list_find_None in Hnone. rewrite Forall_forall in Hnone.
         by eapply Hnone. }
    clear Hspec.
    destruct (removeEdge_detached s k0 k1 s' Hwf Hrun)
      as (v0' & v1' & i & e & _ & ? & ? & _ & _ & He1 & Hends & Hd). simplify_eq.
    exists s', e. split; [done|].
    split; [by apply (reachable_step s (RemoveEdge k0 k1) tt)|].
    split; [by apply listers_pair|]. split; [by apply (Htwo v1)|].
    split.
    { apply listers_empty. intros p [_ Hp]%(dt_adj _ _ _ Hd). apply Hp. by left. }
    intros y Hy. apply set_eq. intros p.
    rewrite !listers_spec, (dt_adj _ _ _ Hd), list_elem_of_singleton. tauto.
  - intros k old Hk.
    pose proof (removeVertex_run s k Hwf) as Hspec.
    destruct (removeVertex k s) as [[] s'|f s'] eqn:Hrun.
    2: { destruct Hspec as (_ & _ & ?). congruence. }
    destruct Hspec as (old' & s1 & Hk' & Hd & ->). simplify_eq.
    eexists. split; [done|].
    split; [by apply (reachable_step s (RemoveVertex k) tt)|].
    split.
    + intros e He. split; [by apply (Htwo old)|].
      apply listers_empty. intros p Hp.
      change (e ∈ adj s1 p) in Hp. by apply (dt_adj _ _ _ Hd) in Hp as [_ Hp].
    + intros y Hy. apply set_eq. intros p. rewrite !listers_spec.
      change (y ∈ adj s1 p ↔ y ∈ adj s p). rewrite (dt_adj _ _ _ Hd). tauto.
Qed.

(** C2 (amended). In a graph reached by a run in which
    [addEdge(k0, k1, payload)] was called and returned, with any
    returning operations before and after it, and in which the edge
    added by that call is still listed: the two slots of that edge
    still hold the vertices at [k0] and [k1] and it still carries the
    payload; [getEdge(k0, k1)] and [getEdge(k1, k0)] both return; each
    returns the first edge, in the order of the sequence of its first
    key's vertex, that touches the other vertex; the two slots of the
    returned edge hold exactly the vertices at [k0] and [k1]; and when
    the added edge is the only one that joins the two vertices, both
    return it, with the payload that was passed to [addEdge]. *)
Theorem C2_getEdge_after_addEdge ops1 ops2 s1 s1' s k0 k1 d p :
  exec ops1 Graph_new = Return tt s1 →
  addEdge k0 k1 d s1 = Return tt s1' →
  exec ops2 s1' = Return tt s →
  fresh (dom (eheap s1)) ∈ adj s p →
  ∃ v0 v1 e0 e1 ed0 ed1 i0 i1,
    k0 ≠ k1 ∧ vertices s !! k0 = Some v0 ∧ vertices s !! k1 = Some v1 ∧
    eheap s !! fresh (dom (eheap s1)) = Some (mkEdge (v0, v1) d) ∧
    fresh (dom (eheap s1)) ∈ adj s v0 ∧ fresh (dom (eheap s1)) ∈ adj s v1 ∧
    getEdge k0 k1 s = Return e0 s ∧ getEdge k1 k0 s = Return e1 s ∧
    list_find (λ x, incident s v1 x) (adj s v0) = Some (i0, e0) ∧
    list_find (λ x, incident s v0 x) (adj s v1) = Some (i1, e1) ∧
    eheap s !! e0 = Some ed0 ∧ eheap s !! e1 = Some ed1 ∧
    (evertices ed0 = (v0, v1) ∨ evertices ed0 = (v1, v0)) ∧
    (evertices ed1 = (v0, v1) ∨ evertices ed1 = (v1, v0)) ∧
    ((∀ x, x ∈ adj s v0 → incident s v1 x → x = fresh (dom (eheap s1))) →
       e0 = fresh (dom (eheap s1)) ∧ e1 = fresh (dom (eheap s1)) ∧
       ed0 = mkEdge (v0, v1) d ∧ ed1 = mkEdge (v0, v1) d ∧
       edata ed0 = d ∧ edata ed1 = d).
Proof.
  intros Hrun1 Hadd Hrun2 Hlisted.
  pose proof (exec_wf ops1 _ s1 Graph_new_wf Hrun1) as Hwf1.
  pose proof (addEdge_wf s1 k0 k1 d s1' Hwf1 Hadd) as Hwf1'.
  pose proof (exec_wf ops2 _ s Hwf1' Hrun2) as Hwf.
  pose proof (wf_store s Hwf) as Hst.
  destruct (addEdge_linked s1 k0 k1 d s1' (wf_store s1 Hwf1) Hadd)
    as (v0 & v1 & Hk & Hk0 & Hk1 & Hne & Hl).
  set (e := fresh (dom (eheap s1))) in *.
  rewrite <- (lk_vertices _ _ _ _ _ _ Hl) in Hk0, Hk1.
  destruct (exec_store_keys ops2 s1' s Hwf1' Hrun2) as [[_ Hedges] Hkeys].
  assert (eheap s !! e = Some (mkEdge (v0, v1) d)) as He.
  { apply Hedges. rewrite (lk_eheap _ _ _ _ _ _ Hl). apply lookup_insert_eq. }
  pose proof (wf_endpoints s p e _ Hwf Hlisted He) as Hends. simpl in Hends.
  assert (e ∈ adj s v0) as He0 by (apply Hends; by left).
  assert (e ∈ adj s v1) as He1 by (apply Hends; by right).
  assert (vertices s !! k0 = Some v0) as Hk0'.
  { destruct (ok_owned s Hst v0 e He0) as [k Hkv].
    pose proof (Hkeys k v0 (ok_live s1' (wf_store s1' Hwf1') k0 v0 Hk0) Hkv) as Hkv'.
    by rewrite (ok_inj s1' (wf_store s1' Hwf1') k0 k v0 Hk0 Hkv'). }
  assert (vertices s !! k1 = Some v1) as Hk1'.
  { destruct (ok_owned s Hst v1 e He1) as [k Hkv].
    pose proof (Hkeys k v1 (ok_live s1' (wf_store s1' Hwf1') k1 v1 Hk1) Hkv) as Hkv'.
    by rewrite (ok_inj s1' (wf_store s1' Hwf1') k1 k v1 Hk1 Hkv'). }
  assert (incident s v0 e ∧ incident s v1 e) as [Hi0 Hi1].
  { rewrite !incident_spec. split; eexists; (split; [exact He|]); simpl; tauto. }
  destruct (getEdge_finds s k0 k1 v0 v1 e) as (i0 & e0 & ed0 & Hg0 & Hf0 & Hed0 & Hp0);
    [done..|].
  destruct (getEdge_finds s k1 k0 v1 v0 e) as (i1 & e1 & ed1 & Hg1 & Hf1 & Hed1 & Hp1);
    [done|by apply not_eq_sym|done..|].
  exists v0, v1, e0, e1, ed0, ed1, i0, i1. do 12 (split; [done|]).
  split; [done|]. split; [tauto|]. intros Honly.
  apply list_find_Some in Hf0 as (Hl0 & Hinc0 & _).
  apply list_find_Some in Hf1 as (Hl1 & Hinc1 & _).
  apply list_elem_of_lookup_2 in Hl0, Hl1.
  assert (e0 = e) as -> by by apply Honly.
  assert (e1 = e) as ->.
  { apply incident_spec in Hinc1 as (ed & Hed & Hv).
    pose proof (wf_endpoints s v1 e1 ed Hwf Hl1 Hed) as Hboth.
    apply Honly.
    - apply Hboth. destruct Hv; eauto.
    - apply incident_spec. exists ed. split; [done|].
      apply Hboth in Hl1. destruct Hl1; eauto. }
  by simplify_eq.
Qed.

(** C3. [removeVertex(k)] on a key of a graph (reached by a sequence
    of operations short enough for the counter not to wrap) returns;
    then [k] is no longer in the map and looking it up throws; no
    sequence lists an edge that touched the removed vertex; [getSize()]
    has gone down by one; and the number of distinct edges has gone down
    by the degree the removed vertex had before the call. *)
Theorem C3_removeVertex_detaches ops s k old :
  exec ops Graph_new = Return tt s →
  Z.of_nat (length ops) < size_t_modulus →
  vertices s !! k = Some old →
  ∃ s', removeVertex k s = Return tt s' ∧
    vertices s' = delete k (vertices s) ∧
    vertices s' !! k = None ∧
    getVertex k s' = Halt OutOfRange s' ∧
    (∀ p e, incident s old e → e ∉ adj s' p) ∧
    getSize s' = Return (gsize s - 1) s' ∧
    (edge_count s' + degree s old = edge_count s)%nat.
Proof.
  intros Hrun Hlen Hk.
  pose proof (exec_wf ops _ s Graph_new_wf Hrun) as Hwf.
  destruct (exec_count_le ops Graph_new s Graph_new_wf Hrun) as [Hle Hup];
    [done|simpl; lia|]. simpl in Hup.
  pose proof (map_size_ne_0_lookup_2 (vertices s) k (mk_is_Some _ _ Hk)) as Hnz.
  pose proof (removeVertex_run s k Hwf) as Hspec.
  destruct (removeVertex k s) as [[] s'|f s'].
  2: { destruct Hspec as (_ & _ & ?). congruence. }
  destruct Hspec as (old' & s1 & Hk' & Hd & ->). simplify_eq.
  eexists. split; [done|].
  assert (∀ p e, incident s old e → e ∉ adj s1 p) as Hgone.
  { intros p e (ed & Hed & Hends)%incident_spec [Hin Hnot]%(dt_adj _ _ _ Hd).
    apply Hnot, (wf_endpoints s p e ed Hwf Hin Hed). destruct Hends; eauto. }
  simpl. rewrite (dt_vertices _ _ _ Hd), (dt_gsize _ _ _ Hd).
  split; [done|]. split; [apply lookup_delete_eq|].
  split; [rewrite getVertex_run; simpl; by rewrite lookup_delete_eq|].
  split; [done|].
  split.
  { rewrite getSize_run. simpl. by rewrite size_t_wrap_small by lia. }
  assert (edge_set (mkState (vheap s1) (eheap s1) (size_t_wrap (gsize s - 1))
                            (delete k (vertices s)))
          = edge_set s ∖ list_to_set (adj s old)) as Hset.
  { apply set_eq. intros x. rewrite elem_of_difference, !edge_set_spec,
      elem_of_list_to_set. simpl. split.
    - intros (k' & p & [_ Hkp]%lookup_delete_Some & Hx).
      change (x ∈ adj s1 p) in Hx. apply (dt_adj _ _ _ Hd) in Hx as [Hx Hnot].
      split; [by exists k', p|done].
    - intros [(k' & p & Hkp & Hx) Hnot]. exists k', p.
      split; [apply lookup_delete_Some; split; [|done]; intros <-; by simplify_eq|].
      change (x ∈ adj s1 p). apply (dt_adj _ _ _ Hd). done. }
  unfold edge_count, degree. rewrite Hset.
  assert (list_to_set (adj s old) ⊆ edge_set s) as Hsub.
  { intros x Hx%elem_of_list_to_set. apply edge_set_spec. eauto. }
  rewrite size_difference by done.
  pose proof (subseteq_size _ _ Hsub) as Hcard.
  rewrite size_list_to_set in * by apply (ok_nodup s (wf_store s Hwf)). lia.
Qed.

(** C4. With two or more edges between the vertices at [k0] and [k1],
    [removeEdge(k0, k1)] returns, having taken out one edge: the first
    one, in the order of [k0]'s vertex's sequence, that touches [k1]'s
    vertex.  That same edge object leaves the sequence of [k1]'s vertex;
    every other edge stays where it was listed, and another edge between
    the two vertices is still listed by both. *)
Theorem C4_removeEdge_removes_first_parallel s k0 k1 v0 v1 :
  reachable s → k0 ≠ k1 →
  vertices s !! k0 = Some v0 → vertices s !! k1 = Some v1 →
  (2 ≤ length (filter (λ x, incident s v1 x) (adj s v0)))%nat →
  ∃ s' i e, removeEdge k0 k1 s = Return tt s' ∧
    list_find (λ x, incident s v1 x) (adj s v0) = Some (i, e) ∧
    e ∈ adj s v1 ∧
    (∀ p, e ∉ adj s' p) ∧
    (∀ p x, x ≠ e → x ∈ adj s' p ↔ x ∈ adj s p) ∧
    degree s' v0 = pred (degree s v0) ∧
    degree s' v1 = pred (degree s v1) ∧
    (∀ p, p ≠ v0 → p ≠ v1 → vheap s' !! p = vheap s !! p) ∧
    eheap s' = eheap s ∧ vertices s' = vertices s ∧ gsize s' = gsize s ∧
    (∃ e', e' ≠ e ∧ incident s' v1 e' ∧ e' ∈ adj s' v0 ∧ e' ∈ adj s' v1).
Proof.
  intros Hwf%reachable_wf Hk Hk0 Hk1 Hpar.
  pose proof (wf_store s Hwf) as Hst.
  assert (v0 ≠ v1) as Hne by (intros ->; by apply Hk, (ok_inj s Hst k0 k1 v1)).
  pose proof (removeEdge_run s k0 k1 Hwf) as Hspec.
  destruct (removeEdge k0 k1 s) as [[] s'|f s'] eqn:Hrun.
  2: { exfalso.
       destruct Hspec as (_ & [(_ & [?|Hnone])|(_ & _ & [?|?])]); try congruence.
       destruct Hnone as (v0' & v1' & ? & ? & Hnone). simplify_eq.
       apply list_find_None in Hnone.
       destruct (filter _ (adj s v0)) as [|a l] eqn:Hf; [simpl in Hpar; lia|].
       assert (a ∈ filter (λ x, incident s v1 x) (adj s v0)) as Ha
         by (rewrite Hf; by left).
       apply list_elem_of_filter in Ha as [Ha Hin].
       rewrite Forall_forall in Hnone. by eapply Hnone. }
  destruct Hspec as (_ & v0' & v1' & i & e & j & ? & ? & Hfind & Hj & Hs').
  simplify_eq.
  destruct (removeEdge_detached s k0 k1 _ Hwf Hrun)
    as (v0' & v1' & i' & e' & _ & ? & ? & _ & Hfind' & He1 & Hends & Hd).
  simplify_eq.
  assert (is_Some (vheap s !! v0)) as Hl0 by by eapply ok_live.
  assert (is_Some (vheap s !! v1)) as Hl1 by by eapply ok_live.
  apply list_find_Some in Hfind as Hfound. destruct Hfound as (Hi & Hinc & _).
  eexists _, i, e. do 3 (split; [done|]).
  split. { intros p [_ Hp]%(dt_adj _ _ _ Hd). apply Hp. by left. }
  split. { intros p x Hx. rewrite (dt_adj _ _ _ Hd), list_elem_of_singleton. tauto. }
  split. { unfold degree. rewrite put_edges_adj_ne by done.
           rewrite put_edges_adj_eq by done. by eapply swap_pop_length. }
  split. { unfold degree. rewrite put_edges_adj_eq by by apply put_edges_live.
           eapply swap_pop_length. by apply std_find_Some. }
  split. { intros p Hp0 Hp1. by rewrite !put_edges_other. }
  split; [apply (dt_eheap _ _ _ Hd)|]. split; [apply (dt_vertices _ _ _ Hd)|].
  split; [apply (dt_gsize _ _ _ Hd)|].
  assert (∃ e', e' ≠ e ∧ incident s v1 e' ∧ e' ∈ adj s v0) as (e' & Hne' & Hinc' & Hin').
  { pose proof (NoDup_filter (λ x, incident s v1 x) _ (ok_nodup s Hst v0)) as Hnd.
    destruct (filter _ (adj s v0)) as [|a [|b l]] eqn:Hf; [simpl in Hpar; lia..|].
    assert (a ≠ b) as Hab.
    { apply NoDup_cons in Hnd as [Ha _]. intros ->. apply Ha. by left. }
    assert (∀ y, y ∈ a :: b :: l → incident s v1 y ∧ y ∈ adj s v0) as Hmem
      by (intros y; rewrite <- Hf; by intros ?%list_elem_of_filter).
    destruct (decide (a = e)) as [->|Hae].
    - exists b. split; [done|]. apply Hmem. right. by left.
    - exists a. split; [done|]. apply Hmem. by left. }
  exists e'. split; [done|].
  assert (e' ∉ [e]) as Hnot by by rewrite list_elem_of_singleton.
  apply incident_spec in Hinc' as Hed. destruct Hed as (ed & Hed & Hv1).
  split. { unfold incident. rewrite (dt_eheap _ _ _ Hd). exact Hinc'. }
  split; [by apply (dt_adj _ _ _ Hd)|].
  apply (dt_adj _ _ _ Hd). split; [|done].
  apply (wf_endpoints s v0 e' ed Hwf Hin' Hed). destruct Hv1; eauto.
Qed.

(** C5 (amended). From a state that satisfies the five invariants (an
    edge being listed once per sequence and only by vertices of the map,
    and with room left in the counter), an operation whose [addVertex]
    key is not already in the map either returns in a state that
    satisfies the five invariants again, or stops at a failed assertion
    or a missing key with the state exactly as it was before the call. *)
Theorem C5_completes_or_leaves_untouched o s :
  invariants s → precondition o s →
  Z.of_nat (size (vertices s)) + 1 < size_t_modulus →
  match run_op o s with
  | Return _ s' => invariants s'
  | Halt f s' => s' = s ∧ (f = AssertionFailed ∨ f = OutOfRange)
  end.
Proof.
  intros [Hwf Hcount] Hpre Hmax.
  destruct (run_op o s) as [a s'|f s'] eqn:Hrun.
  - split; [by eapply run_op_wf|].
    eapply run_op_count_eq; eauto. unfold inv_count in Hcount. lia.
  - by eapply run_op_halt.
Qed.

(** C6. Along a sequence of operations in which every [addVertex] uses a
    key that is not in the map (and that is short enough for the counter
    not to wrap), [getSize()] after each operation is the number of
    entries of the map; and after [addVertex] calls with pairwise
    distinct keys on an empty graph it is the number of calls. *)
Theorem C6_getSize_counts_entries :
  (∀ (ops1 ops2 : list op) s,
     lawful (ops1 ++ ops2) Graph_new →
     Z.of_nat (length (ops1 ++ ops2)) < size_t_modulus →
     exec ops1 Graph_new = Return tt s →
     getSize s = Return (Z.of_nat (size (vertices s))) s) ∧
  (∀ kds : list (Key * V),
     NoDup kds.*1 → Z.of_nat (length kds) < size_t_modulus →
     ∃ s : State,
       exec ((λ kd, AddVertex kd.1 kd.2) <$> kds) Graph_new = Return tt s ∧
       getSize s = Return (Z.of_nat (length kds)) s).
Proof.
  split.
  - intros ops1 ops2 s Hlaw Hlen Hrun. rewrite getSize_run. f_equal.
    apply (exec_count_eq ops1 Graph_new s); try done.
    + apply Graph_new_wf.
    + by eapply lawful_app.
    + simpl. rewrite length_app in Hlen. lia.
  - intros kds Hnd Hlen.
    destruct (add_vertices_run kds Graph_new Hnd) as (s & Hrun & Hsize & _);
      [done|done|simpl; lia|].
    exists s. split; [done|]. rewrite getSize_run, Hsize. done.
Qed.

(** C7. [addEdge(k, k, payload)] stops at the assertion with the state
    as it was, whatever the state; and in no reachable state does an
    edge have the same vertex in both of its slots. *)
Theorem C7_no_self_loop :
  (∀ s (k : Key) (d : E), addEdge k k d s = Halt AssertionFailed s) ∧
  (∀ s, reachable s →
     ∀ e ed, eheap s !! e = Some ed → (evertices ed).1 ≠ (evertices ed).2).
Proof.
  split.
  - intros s k d. unfold addEdge. rewrite bind_run. unfold assert.
    by rewrite bool_decide_eq_false_2 by (intros Hk; by apply Hk).
  - intros s Hwf%reachable_wf. apply (wf_noloop s Hwf).
Qed.

(** C8. For a key present in the map of a reachable graph, looking the
    vertex up and then asking for the key of that vertex returns the
    key. *)
Theorem C8_getKey_getVertex_roundtrip s k p :
  reachable s → vertices s !! k = Some p →
  getVertex k s = Return p s ∧
  (vertex ← getVertex k; getKey vertex) s = Return k s.
Proof.
  intros Hwf%reachable_wf Hk.
  rewrite bind_run, getVertex_run, Hk. split; [done|].
  apply getKey_run; [by apply wf_store|done].
Qed.

(** C9. [addVertex(k, payload)] with [k] already in the map (of a graph
    reached by a sequence too short for the counter to wrap) returns
    with the map unchanged: the vertex stored at [k] is the one that was
    there, as it was; the new vertex is in no entry of the map and at
    no end of a listed edge; and the counter has gone up by one, so
    [getSize()] is now strictly greater than the number of entries. *)
Theorem C9_addVertex_existing_key ops s k p d :
  exec ops Graph_new = Return tt s →
  Z.of_nat (length ops) + 1 < size_t_modulus →
  vertices s !! k = Some p →
  ∃ s', addVertex k d s = Return tt s' ∧
    vertices s' = vertices s ∧
    vheap s' !! p = vheap s !! p ∧
    eheap s' = eheap s ∧
    (∀ q, adj s' q = adj s q) ∧
    (∀ k', vertices s' !! k' ≠ Some (fresh (dom (vheap s)))) ∧
    (∀ q e, e ∈ adj s' q → ¬ incident s' (fresh (dom (vheap s))) e) ∧
    getSize s' = Return (gsize s + 1) s' ∧
    Z.of_nat (size (vertices s')) < gsize s'.
Proof.
  intros Hrun Hlen Hk.
  pose proof (exec_wf ops _ s Graph_new_wf Hrun) as Hwf.
  destruct (exec_count_le ops Graph_new s Graph_new_wf Hrun) as [Hle Hup];
    [done|simpl; lia|]. simpl in Hup.
  assert (∀ k' q, vertices s !! k' = Some q → q ≠ fresh (dom (vheap s))) as Hold.
  { intros k' q Hq ->. destruct (ok_live s (wf_store s Hwf) k' _ Hq) as [v Hv].
    rewrite fresh_vertex_dead in Hv. done. }
  pose proof (addVertex_run s k d) as Hadd.
  pose proof (λ q, addVertex_adj s k d _ q Hadd) as Hadj.
  eexists. split; [exact Hadd|]. simpl in *. rewrite Hk in Hadj |- *.
  split; [done|].
  split; [rewrite lookup_insert_ne; [done|]; symmetry; by eapply Hold|].
  split; [done|].
  split; [done|].
  split; [intros k' Hk'; by eapply Hold|].
  split.
  { intros q e. rewrite Hadj. intros He (ed & Hed & Hends)%incident_spec.
    simpl in Hed.
    assert (e ∈ adj s (fresh (dom (vheap s)))) as Hin
      by (apply (wf_endpoints s q e ed Hwf He Hed); destruct Hends; eauto).
    apply adj_elem_live in Hin as [v Hv]. rewrite fresh_vertex_dead in Hv. done. }
  rewrite getSize_run. simpl. rewrite size_t_wrap_small by lia.
  split; [done|lia].
Qed.

(** C10. In a state that satisfies the structural invariants, the search
    of [removeEdge] for the found edge in the second vertex's sequence
    succeeds and the call returns; the loop of [removeVertex] finds every
    edge on the neighbour's side and the call returns.  Neither function
    ever writes through an end iterator, dereferences a dead address or
    runs out of fuel: the only faults are the failed assertion and the
    missing key, both raised before anything is written. *)
Theorem C10_searches_succeed s :
  wf s →
  (∀ k0 k1 v0 v1 i e,
     k0 ≠ k1 → vertices s !! k0 = Some v0 → vertices s !! k1 = Some v1 →
     list_find (λ x, incident s v1 x) (adj s v0) = Some (i, e) →
     ∃ j, std_find e (adj (put_edges v0 (swap_pop i (adj s v0)) s) v1) = Some j ∧
          removeEdge k0 k1 s =
            Return tt (put_edges v1 (swap_pop j (adj s v1))
                         (put_edges v0 (swap_pop i (adj s v0)) s))) ∧
  (∀ k0 k1 f s', removeEdge k0 k1 s = Halt f s' →
     s' = s ∧ (f = AssertionFailed ∨ f = OutOfRange)) ∧
  (∀ k old, vertices s !! k = Some old →
     ∃ s', removeVertex k s = Return tt s') ∧
  (∀ k f s', removeVertex k s = Halt f s' →
     s' = s ∧ f = OutOfRange ∧ vertices s !! k = None).
Proof.
  intros Hwf. pose proof (wf_store s Hwf) as Hst.
  split; [|split; [|split]].
  - intros k0 k1 v0 v1 i e Hk Hk0 Hk1 Hfind.
    assert (v0 ≠ v1) as Hne by (intros ->; by apply Hk, (ok_inj s Hst k0 k1 v1)).
    pose proof (removeEdge_run s k0 k1 Hwf) as Hspec.
    destruct (removeEdge k0 k1 s) as [[] s'|f s'].
    + destruct Hspec as (_ & v0' & v1' & i' & e' & j & ? & ? & Hfind' & Hj & ->).
      simplify_eq. exists j. by rewrite put_edges_adj_ne.
    + exfalso.
      destruct Hspec as (_ & [(_ & [?|Hnone])|(_ & _ & [?|?])]); try congruence.
      destruct Hnone as (v0' & v1' & ? & ? & Hnone). simplify_eq.
  - intros k0 k1 f s' Hrun.
    pose proof (removeEdge_run s k0 k1 Hwf) as Hspec. rewrite Hrun in Hspec.
    destruct Hspec as (-> & [[? _]|[? _]]); eauto.
  - intros k old Hk. pose proof (removeVertex_run s k Hwf) as Hspec.
    destruct (removeVertex k s) as [[] s'|f s']; [by exists s'|].
    destruct Hspec as (_ & _ & ?). congruence.
  - intros k f s' Hrun.
    pose proof (removeVertex_run s k Hwf) as Hspec. by rewrite Hrun in Hspec.
Qed.

End Properties.

(** * The small graph: runs of the operations *)

Lemma reachable_after (ops : list (op string nat string)) :
  (if exec ops Graph_new is Return _ _ then True else False) →
  reachable (state_after ops).
Proof.
  intros Hret. exists ops. unfold state_after.
  destruct (exec ops Graph_new) as [[] s|]; [done|by destruct Hret].
Qed.

Lemma reachable_s_AB : reachable s_AB.
Proof. apply reachable_after. by vm_compute. Qed.

Lemma reachable_s_AB_x : reachable s_AB_x.
Proof. apply reachable_after. by vm_compute. Qed.

Lemma reachable_s_AB_xy : reachable s_AB_xy.
Proof. apply reachable_after. by vm_compute. Qed.

Lemma reachable_s_ABC : reachable s_ABC.
Proof. apply reachable_after. by vm_compute. Qed.

Lemma reachable_s_A : reachable s_A.
Proof. apply reachable_after. by vm_compute. Qed.

(** In the graph with the two parallel edges the first edge is listed by
    exactly the two vertices; a third edge between them is added to both
    and removing an edge between them takes it from both; and removing
    the middle vertex of the path leaves both of its edges unlisted. *)
Lemma C1_witness :
  (listers s_AB_xy 1%positive = {[1%positive; 2%positive]} ∧
   size (listers s_AB_xy 1%positive) = 2%nat) ∧
  (∃ s' e, addEdge kA kB "z"%string s_AB_xy = Return tt s' ∧
           adj s' 1%positive = adj s_AB_xy 1%positive ++ [e] ∧
           adj s' 2%positive = adj s_AB_xy 2%positive ++ [e] ∧
           listers s' e = {[1%positive; 2%positive]}) ∧
  (∃ s' e, removeEdge kA kB s_AB_xy = Return tt s' ∧
           listers s_AB_xy e = {[1%positive; 2%positive]} ∧ listers s' e = ∅) ∧
  (∃ s', removeVertex kB s_ABC = Return tt s' ∧
         listers s' 1%positive = ∅ ∧ listers s' 2%positive = ∅).
Proof.
  destruct (C1_edge_listed_by_both_ends_or_by_none s_AB_xy)
    as (Hinv & Hadd & Hrem & _); [apply reachable_after; by vm_compute|].
  destruct (C1_edge_listed_by_both_ends_or_by_none s_ABC)
    as (_ & _ & _ & Hvert); [apply reachable_after; by vm_compute|].
  assert (adj s_AB_xy 1%positive = [1%positive; 2%positive]) as Hadj
    by (vm_compute; reflexivity).
  assert (adj s_ABC 2%positive = [1%positive; 2%positive]) as HadjB
    by (vm_compute; reflexivity).
  split; [|split; [|split]].
  - destruct (Hinv 1%positive) as [Hnone|(ed & Hed & _ & Hpair & Hsize)].
    + exfalso. apply (proj1 (listers_empty s_AB_xy 1%positive) Hnone 1%positive).
      rewrite Hadj. by left.
    + assert (ed = mkEdge (1%positive, 2%positive) "x"%string) as Hrec.
      { assert (eheap s_AB_xy !! 1%positive
                = Some (mkEdge (1%positive, 2%positive) "x"%string)) as Hed'
          by (vm_compute; reflexivity).
        rewrite Hed' in Hed. by injection Hed as <-. }
      rewrite Hrec in Hpair. exact (conj Hpair Hsize).
  - destruct (Hadd kA kB 1%positive 2%positive "z"%string)
      as (s' & e & Hrun & _ & _ & _ & Ha0 & Ha1 & Hpair & _).
    + by vm_compute.
    + vm_compute. reflexivity.
    + vm_compute. reflexivity.
    + exists s', e. exact (conj Hrun (conj Ha0 (conj Ha1 Hpair))).
  - destruct (Hrem kA kB 1%positive 2%positive 1%positive)
      as (s' & e & Hrun & _ & Hpair & _ & Hnone & _).
    + by vm_compute.
    + vm_compute. reflexivity.
    + vm_compute. reflexivity.
    + rewrite Hadj. by left.
    + by vm_compute.
    + exists s', e. exact (conj Hrun (conj Hpair Hnone)).
  - destruct (Hvert kB 2%positive) as (s' & Hrun & _ & Hgone & _).
    + vm_compute. reflexivity.
    + exists s'. split; [exact Hrun|]. split.
      * apply Hgone. rewrite HadjB. by left.
      * apply Hgone. rewrite HadjB. right. by left.
Defined.

(** An edge between A and B, then a third vertex and an edge to it: the
    edge between A and B is still found from both sides, with its
    payload. *)
Lemma C2_witness :
  ∃ e0 e1 ed0 ed1,
    getEdge kA kB (state_after (ops_AB_x ++ [AddVertex kC 3%nat; AddEdge kB kC "z"%string]))
    = Return e0 (state_after (ops_AB_x ++ [AddVertex kC 3%nat; AddEdge kB kC "z"%string])) ∧
    getEdge kB kA (state_after (ops_AB_x ++ [AddVertex kC 3%nat; AddEdge kB kC "z"%string]))
    = Return e1 (state_after (ops_AB_x ++ [AddVertex kC 3%nat; AddEdge kB kC "z"%string])) ∧
    eheap (state_after (ops_AB_x ++ [AddVertex kC 3%nat; AddEdge kB kC "z"%string])) !! e0
    = Some ed0 ∧
    eheap (state_after (ops_AB_x ++ [AddVertex kC 3%nat; AddEdge kB kC "z"%string])) !! e1
    = Some ed1 ∧
    edata ed0 = "x"%string ∧ edata ed1 = "x"%string.
Proof.
  destruct (C2_getEdge_after_addEdge ops_AB
              [AddVertex kC 3%nat; AddEdge kB kC "z"%string] s_AB s_AB_x
              (state_after (ops_AB_x ++ [AddVertex kC 3%nat; AddEdge kB kC "z"%string]))
              kA kB "x"%string 1%positive)
    as (v0 & v1 & e0 & e1 & ed0 & ed1 & i0 & i1 & _ & Hk0 & Hk1 & _ & _ & _
        & Hg0 & Hg1 & _ & _ & Hed0 & Hed1 & _ & _ & Honly).
  - vm_compute. reflexivity.
  - vm_compute. reflexivity.
  - vm_compute. reflexivity.
  - assert (adj (state_after (ops_AB_x ++ [AddVertex kC 3%nat; AddEdge kB kC "z"%string]))
              1%positive = [fresh (dom (eheap s_AB))]) as Hadj
      by (vm_compute; reflexivity).
    rewrite Hadj. by left.
  - destruct Honly as (_ & _ & _ & _ & Hd0 & Hd1).
    + intros x Hx _.
      assert (vertices (state_after (ops_AB_x ++ [AddVertex kC 3%nat; AddEdge kB kC "z"%string]))
                !! kA = Some 1%positive) as Hk0' by (vm_compute; reflexivity).
      rewrite Hk0' in Hk0. injection Hk0 as <-.
      assert (adj (state_after (ops_AB_x ++ [AddVertex kC 3%nat; AddEdge kB kC "z"%string]))
                1%positive = [fresh (dom (eheap s_AB))]) as Hadj
        by (vm_compute; reflexivity).
      rewrite Hadj in Hx. by apply list_elem_of_singleton in Hx.
    + exists e0, e1, ed0, ed1.
      exact (conj Hg0 (conj Hg1 (conj Hed0 (conj Hed1 (conj Hd0 Hd1))))).
Defined.

(** With a second, parallel edge the edge found is still the first one,
    and its payload is not the one just passed to [addEdge]. *)
Lemma C2_counterexample :
  ¬ (∀ (s s' : State string nat string) k0 k1 d,
       reachable s → addEdge k0 k1 d s = Return tt s' →
       ∃ e ed, getEdge k0 k1 s' = Return e s' ∧
               eheap s' !! e = Some ed ∧ edata ed = d).
Proof.
  intros Hclaim.
  destruct (Hclaim s_AB_x s_AB_xy kA kB "y"%string) as (e & ed & Hget & Hed & Hd).
  - apply reachable_s_AB_x.
  - vm_compute. reflexivity.
  - vm_compute in Hget. injection Hget as <-.
    vm_compute in Hed. injection Hed as <-. discriminate Hd.
Qed.

Lemma C3_witness :
  ∃ s', removeVertex kB s_ABC = Return tt s' ∧
        vertices s' !! kB = None ∧
        (edge_count s' + degree s_ABC 2%positive = edge_count s_ABC)%nat.
Proof.
  destruct (C3_removeVertex_detaches ops_ABC s_ABC kB 2%positive)
    as (s' & Hrun & _ & Hgone & _ & _ & _ & Hcount).
  - vm_compute. reflexivity.
  - vm_compute. reflexivity.
  - vm_compute. reflexivity.
  - exists s'. exact (conj Hrun (conj Hgone Hcount)).
Defined.

Lemma C4_witness :
  ∃ s' i e, removeEdge kA kB s_AB_xy = Return tt s' ∧
    list_find (λ x, incident s_AB_xy 2%positive x) (adj s_AB_xy 1%positive) = Some (i, e) ∧
    ∃ e', e' ≠ e ∧ e' ∈ adj s' 1%positive ∧ e' ∈ adj s' 2%positive.
Proof.
  destruct (C4_removeEdge_removes_first_parallel s_AB_xy kA kB 1%positive 2%positive)
    as (s' & i & e & Hrun & Hfind & _ & _ & _ & _ & _ & _ & _ & _ & _ & e' & Hne & _ & H0 & H1).
  - apply reachable_after. by vm_compute.
  - by vm_compute.
  - vm_compute. reflexivity.
  - vm_compute. reflexivity.
  - vm_compute. lia.
  - exists s', i, e. split; [exact Hrun|]. split; [exact Hfind|].
    exists e'. exact (conj Hne (conj H0 H1)).
Defined.

(** Adding a third vertex to the two-vertex graph re-establishes the
    invariants. *)
Lemma C5_witness :
  match run_op (AddVertex kC 3%nat) s_AB with
  | Return _ s' => invariants s'
  | Halt f s' => s' = s_AB ∧ (f = AssertionFailed ∨ f = OutOfRange)
  end.
Proof.
  apply (C5_completes_or_leaves_untouched (AddVertex kC 3%nat) s_AB).
  - split.
    + apply reachable_wf. apply reachable_after. by vm_compute.
    + vm_compute. reflexivity.
  - vm_compute. reflexivity.
  - vm_compute. reflexivity.
Defined.

(** [addVertex] with the key of the one-vertex graph returns, and the
    counter no longer is the number of entries. *)
Lemma C5_counterexample :
  ¬ (∀ (o : op string nat string) (s : State string nat string),
       invariants s →
       match run_op o s with
       | Return _ s' => invariants s'
       | Halt _ s' => s' = s
       end).
Proof.
  intros Hclaim.
  assert (invariants s_A) as Hinv.
  { split; [apply reachable_wf, reachable_s_A|]. vm_compute. reflexivity. }
  specialize (Hclaim (AddVertex kA 2%nat) s_A Hinv).
  unfold run_op in Hclaim. rewrite addVertex_run in Hclaim.
  destruct Hclaim as [_ Hcount]. vm_compute in Hcount. discriminate Hcount.
Qed.

Lemma C6_witness :
  getSize s_AB = Return (Z.of_nat (size (vertices s_AB))) s_AB ∧
  ∃ s : State string nat string,
    exec ((λ kd, AddVertex kd.1 kd.2) <$> [(kA, 1%nat); (kB, 2%nat)]) Graph_new
      = Return tt s ∧
    getSize s = Return (Z.of_nat (length [(kA, 1%nat); (kB, 2%nat)])) s.
Proof.
  destruct (@C6_getSize_counts_entries string _ _ nat string) as [Hseq Hadds].
  split.
  - apply (Hseq ops_AB []).
    + vm_compute. tauto.
    + vm_compute. reflexivity.
    + vm_compute. reflexivity.
  - apply Hadds.
    + apply (bool_decide_unpack _). by vm_compute.
    + vm_compute. reflexivity.
Defined.

Lemma C7_witness :
  addEdge kA kA "x"%string s_AB = Halt AssertionFailed s_AB ∧
  (evertices (mkEdge (1%positive, 2%positive) "x"%string)).1 ≠
  (evertices (mkEdge (1%positive, 2%positive) "x"%string)).2.
Proof.
  destruct (@C7_no_self_loop string _ _ nat string) as [Hsame Hloop].
  split; [apply Hsame|].
  apply (Hloop s_AB_x (reachable_after ops_AB_x I) 1%positive
           (mkEdge (1%positive, 2%positive) "x"%string)).
  vm_compute. reflexivity.
Defined.

Lemma C8_witness :
  getVertex kB s_ABC = Return 2%positive s_ABC ∧
  (vertex ← getVertex kB; getKey vertex) s_ABC = Return kB s_ABC.
Proof.
  apply (C8_getKey_getVertex_roundtrip s_ABC kB 2%positive).
  - apply reachable_after. by vm_compute.
  - vm_compute. reflexivity.
Defined.

Lemma C9_witness :
  ∃ s', addVertex kA 7%nat s_AB = Return tt s' ∧
        vertices s' = vertices s_AB ∧
        Z.of_nat (size (vertices s')) < gsize s'.
Proof.
  destruct (C9_addVertex_existing_key ops_AB s_AB kA 1%positive 7%nat)
    as (s' & Hrun & Hmap & _ & _ & _ & _ & _ & _ & Hgt).
  - vm_compute. reflexivity.
  - vm_compute. reflexivity.
  - vm_compute. reflexivity.
  - exists s'. exact (conj Hrun (conj Hmap Hgt)).
Defined.

Lemma C10_witness :
  (∃ s', removeEdge kA kB s_AB_xy = Return tt s') ∧
  (∃ s', removeVertex kB s_ABC = Return tt s').
Proof.
  split.
  - destruct (C10_searches_succeed s_AB_xy) as [Hedge _].
    + apply reachable_wf. apply reachable_after. by vm_compute.
    + destruct (Hedge kA kB 1%positive 2%positive 0%nat 1%positive) as (j & _ & Hrun).
      * by vm_compute.
      * vm_compute. reflexivity.
      * vm_compute. reflexivity.
      * vm_compute. reflexivity.
      * eexists. exact Hrun.
  - destruct (C10_searches_succeed s_ABC) as (_ & _ & Hvertex & _).
    + apply reachable_wf. apply reachable_after. by vm_compute.
    + apply (Hvertex kB 2%positive). vm_compute. reflexivity.
Defined.

(** * More about the member functions *)

Section More.

Context {Key : Type} `{Countable Key}.
Context {V E : Type}.

Abbreviation State := (State Key V E).
Abbreviation M := (M Key V E).
Abbreviation op := (op Key V E).

Implicit Types s : State.
Implicit Types o : op.
Implicit Types ops : list op.

(** ** Adding a vertex and looking it up *)

(** X1. [addVertex(k, data)] with a key that is not in the map, in any
    state: [getVertex(k)] then returns a vertex that did not exist
    before, holds [data] and lists no edge; the other keys lead where
    they led. *)
Theorem addVertex_then_getVertex s k d :
  vertices s !! k = None →
  ∃ s' p, addVertex k d s = Return tt s' ∧
    getVertex k s' = Return p s' ∧
    vheap s !! p = None ∧
    vheap s' !! p = Some (mkVertex [] d) ∧
    adj s' p = [] ∧
    (∀ k', k' ≠ k → getVertex k' s' = match vertices s !! k' with
                                      | Some q => Return q s'
                                      | None => Halt OutOfRange s'
                                      end).
Proof.
  intros Hk. eexists _, (fresh (dom (vheap s))).
  split; [apply addVertex_run|]. rewrite Hk.
  rewrite !getVertex_run. simpl. rewrite !lookup_insert_eq.
  split; [done|]. split; [apply fresh_vertex_dead|]. split; [done|].
  split; [unfold adj; simpl; by rewrite lookup_insert_eq|].
  intros k' Hk'. rewrite getVertex_run. simpl. by rewrite lookup_insert_ne.
Qed.

(** X2. [addVertex(k, data)] with a new key followed by
    [removeVertex(k)], in any state whose counter is a [size_t] value:
    the second call returns, and the map, the counter, the edges and
    every vertex that was there are as before the first call. *)
Theorem addVertex_then_removeVertex s k d :
  vertices s !! k = None → 0 ≤ gsize s < size_t_modulus →
  ∃ s', (addVertex k d;; removeVertex k) s = Return tt s' ∧
    vertices s' = vertices s ∧
    gsize s' = gsize s ∧
    eheap s' = eheap s ∧
    (∀ p, is_Some (vheap s !! p) → vheap s' !! p = vheap s !! p) ∧
    (∀ p, adj s' p = adj s p).
Proof.
  intros Hk Hrange. rewrite bind_run, addVertex_run, Hk.
  set (p0 := fresh (dom (vheap s))).
  pose proof (fresh_vertex_dead s) as Hfresh. fold p0 in Hfresh.
  set (s1 := mkState _ _ _ _).
  assert (is_Some (vheap s1 !! p0)) as Hlive
    by (unfold s1; simpl; rewrite lookup_insert_eq; eauto).
  assert (adj s1 p0 = []) as Hadj
    by (unfold adj, s1; simpl; by rewrite lookup_insert_eq).
  unfold removeVertex. rewrite bind_run, (at_run s1 k p0)
    by (unfold s1; simpl; apply lookup_insert_eq).
  rewrite bind_run, get_edges_run by done. rewrite Hadj. simpl.
  rewrite !bind_run, get_edges_run by done. rewrite Hadj. simpl.
  eexists. split; [reflexivity|]. simpl.
  split; [by apply delete_insert_id|].
  split.
  { unfold size_t_wrap. rewrite Zminus_mod_idemp_l.
    replace (gsize s + 1 - 1) with (gsize s) by lia. by apply Z.mod_small. }
  split; [done|].
  split.
  { intros p [v Hv]. rewrite lookup_insert_ne; [done|]. intros <-. congruence. }
  intros p. unfold adj. simpl. destruct (decide (p0 = p)) as [<-|Hne].
  - by rewrite lookup_insert_eq, Hfresh.
  - by rewrite lookup_insert_ne.
Qed.

(** ** Queries only read *)

Lemma scan_final s v l i : final_state (scan v l i s) = s.
Proof.
  revert i. induction l as [|e l IH]; intros i; [done|].
  simpl. rewrite bind_run. unfold get_evertices at 1.
  destruct (eheap s !! e) as [ed|]; [|done].
  destruct (touches v (evertices ed)); [done|apply IH].
Qed.

Lemma print_edges_final s l : final_state (print_edges l s) = s.
Proof.
  induction l as [|e l IH]; [done|].
  simpl. rewrite bind_run. unfold get_evertices at 1.
  destruct (eheap s !! e) as [ed|]; [|done].
  rewrite bind_run. by destruct (print_edges l s).
Qed.

Lemma print_vertices_final s kvs : final_state (print_vertices kvs s) = s.
Proof.
  induction kvs as [|[k p] kvs IH]; [done|].
  simpl. rewrite bind_run. unfold get_edges at 1.
  destruct (vheap s !! p) as [v|]; [|done].
  rewrite bind_run. pose proof (print_edges_final s (edges v)) as Hpe.
  destruct (print_edges (edges v) s) as [ls s1|f s1]; simpl in Hpe; subst s1; [|done].
  rewrite bind_run. by destruct (print_vertices kvs s).
Qed.

(** X3. In any state whatever, and whether they return or stop,
    [getVertex], [getEdge], [getKey], [getSize] and [operator<<] end in
    the state they started from. *)
Theorem queries_never_write s :
  (∀ k, final_state (getVertex k s) = s) ∧
  (∀ k0 k1, final_state (getEdge k0 k1 s) = s) ∧
  (∀ p, final_state (getKey p s) = s) ∧
  final_state (getSize s) = s ∧
  (∀ g, final_state (print g s) = s).
Proof.
  split; [|split; [|split; [|split]]].
  - intros k. rewrite getVertex_run. by destruct (vertices s !! k).
  - intros k0 k1. unfold getEdge. rewrite bind_run. unfold assert.
    case_bool_decide; [|done]. simpl. rewrite bind_run. unfold at_ at 1.
    destruct (vertices s !! k0) as [v0|]; [|done].
    rewrite bind_run. unfold at_ at 1.
    destruct (vertices s !! k1) as [v1|]; [|done].
    rewrite bind_run. unfold get_edges at 1.
    destruct (vheap s !! v0) as [v|]; [|done].
    rewrite bind_run. pose proof (scan_final s v1 (edges v) 0) as Hscan.
    destruct (scan v1 (edges v) 0 s) as [[[i e]|] s1|f s1]; by simpl in *.
  - intros p. pose proof (getKey_run_any s p) as Hk.
    destruct (getKey p s); by destruct Hk.
  - done.
  - intros g. unfold print. rewrite bind_run.
    pose proof (print_vertices_final s (map_to_list (vertices s))) as Hpv.
    by destruct (print_vertices _ s).
Qed.

(** ** Missing keys *)

(** X4. A key that is not in the map, in any state: [getVertex] and
    [removeVertex] on it, and [addEdge], [getEdge] and [removeEdge] with
    it on either side of a different key, stop with the [out_of_range]
    of [unordered_map::at], and the state is as it was. *)
Theorem missing_key_throws s k :
  vertices s !! k = None →
  getVertex k s = Halt OutOfRange s ∧
  removeVertex k s = Halt OutOfRange s ∧
  ∀ k', k' ≠ k →
    (∀ d, addEdge k k' d s = Halt OutOfRange s ∧
          addEdge k' k d s = Halt OutOfRange s) ∧
    getEdge k k' s = Halt OutOfRange s ∧ getEdge k' k s = Halt OutOfRange s ∧
    removeEdge k k' s = Halt OutOfRange s ∧ removeEdge k' k s = Halt OutOfRange s.
Proof.
  intros Hk. split; [by rewrite getVertex_run, Hk|].
  split; [unfold removeVertex; by rewrite bind_run, at_run_None|].
  intros k' Hne.
  assert (∀ {A} (m : eptr → M A), (vertex_0 ← at_ k; m vertex_0) s = Halt OutOfRange s)
    as Hleft by (intros A m; by rewrite bind_run, at_run_None).
  assert (∀ {A} (m : eptr → eptr → M A),
            (vertex_0 ← at_ k'; vertex_1 ← at_ k; m vertex_0 vertex_1) s
            = Halt OutOfRange s) as Hright.
  { intros A m. rewrite bind_run. unfold at_ at 1.
    destruct (vertices s !! k'); [|done]. by rewrite bind_run, at_run_None. }
  repeat split.
  - unfold addEdge. rewrite bind_run. unfold assert.
    rewrite bool_decide_eq_true_2 by done. apply Hleft.
  - unfold addEdge. rewrite bind_run. unfold assert.
    rewrite bool_decide_eq_true_2 by done. apply Hright.
  - unfold getEdge. rewrite bind_run. unfold assert.
    rewrite bool_decide_eq_true_2 by done. apply Hleft.
  - unfold getEdge. rewrite bind_run. unfold assert.
    rewrite bool_decide_eq_true_2 by done. apply Hright.
  - unfold removeEdge. rewrite bind_run. unfold assert.
    rewrite bool_decide_eq_true_2 by done. apply Hleft.
  - unfold removeEdge. rewrite bind_run. unfold assert.
    rewrite bool_decide_eq_true_2 by done. apply Hright.
Qed.

(** ** getKey as the inverse of getVertex *)

(** X5. In a reachable state [getKey] returns [k] for a vertex exactly
    when [k] is the key the vertex is stored at, and fails its assertion
    exactly when the vertex is stored at no key. *)
Theorem getKey_inverts_getVertex s p :
  reachable s →
  (∀ k, getKey p s = Return k s ↔ getVertex k s = Return p s) ∧
  (getKey p s = Halt AssertionFailed s ↔ ∀ k, getVertex k s ≠ Return p s).
Proof.
  intros Hwf%reachable_wf. pose proof (wf_store s Hwf) as Hst.
  assert (∀ k, getVertex k s = Return p s ↔ vertices s !! k = Some p) as Hget.
  { intros k. rewrite getVertex_run.
    destruct (vertices s !! k); split; intros; by simplify_eq. }
  pose proof (getKey_run_any s p) as Hany. split.
  - intros k. rewrite Hget. split.
    + intros Hk. rewrite Hk in Hany. tauto.
    + by apply getKey_run.
  - split.
    + intros Hk. rewrite Hk in Hany. destruct Hany as (_ & _ & Hno).
      intros k. rewrite Hget. apply Hno.
    + intros Hno. destruct (getKey p s) as [k s'|f s'].
      * destruct Hany as [_ Hk]. by apply Hget, Hno in Hk.
      * by destruct Hany as (-> & -> & _).
Qed.

(** X6. After [removeVertex(k)] on a reachable graph, [getKey] on the
    vertex that was removed fails its assertion, and every other vertex
    of the map still has its key. *)
Theorem getKey_after_removeVertex s k old s' :
  reachable s → vertices s !! k = Some old →
  removeVertex k s = Return tt s' →
  getKey old s' = Halt AssertionFailed s' ∧
  (∀ k' p, k' ≠ k → vertices s !! k' = Some p → getKey p s' = Return k' s').
Proof.
  intros Hwf%reachable_wf Hk Hrun.
  pose proof (removeVertex_wf s k s' Hwf Hrun) as Hwf'.
  pose proof (run_op_count s (RemoveVertex k) tt s' Hwf Hrun) as (_ & Hmap & _).
  split.
  - pose proof (getKey_run_any s' old) as Hany.
    destruct (getKey old s') as [k' s1|f s1].
    + destruct Hany as [_ Hk']. rewrite Hmap in Hk'.
      apply lookup_delete_Some in Hk' as [Hne Hk'].
      by pose proof (ok_inj s (wf_store s Hwf) k k' old Hk Hk').
    + by destruct Hany as (-> & -> & _).
  - intros k' p Hne Hk'. apply getKey_run; [by apply wf_store|].
    rewrite Hmap. by apply lookup_delete_Some.
Qed.

(** ** Edges between two vertices *)

(** No edge from [v0] to [v1] means no edge from [v1] to [v0]. *)
Lemma unjoined_sym s v0 v1 :
  wf s → (∀ x, x ∈ adj s v0 → ¬ incident s v1 x) →
  ∀ x, x ∈ adj s v1 → ¬ incident s v0 x.
Proof.
  intros Hwf Hnone x Hx (ed & Hed & Hends)%incident_spec.
  pose proof (wf_endpoints s v1 x ed Hwf Hx Hed) as Hboth.
  apply (Hnone x).
  - apply Hboth. destruct Hends; eauto.
  - apply incident_spec. exists ed. split; [done|].
    apply Hboth in Hx. destruct Hx; eauto.
Qed.

Lemma listed_incident s p e : wf s → e ∈ adj s p → incident s p e.
Proof.
  intros Hwf He. destruct (wf_incident s Hwf p e He) as (ed & Hed & Hends).
  apply incident_spec. exists ed. split; [done|]. destruct Hends; eauto.
Qed.

(** With no edge between the two vertices, [getEdge] and [removeEdge]
    stop at their assertion. *)
Lemma no_edge_halts s k0 k1 v0 v1 :
  wf s → k0 ≠ k1 →
  vertices s !! k0 = Some v0 → vertices s !! k1 = Some v1 →
  (∀ x, x ∈ adj s v0 → ¬ incident s v1 x) →
  getEdge k0 k1 s = Halt AssertionFailed s ∧
  removeEdge k0 k1 s = Halt AssertionFailed s.
Proof.
  intros Hwf Hk Hk0 Hk1 Hnone. split.
  - pose proof (getEdge_run s k0 k1 Hwf) as Hspec.
    destruct (getEdge k0 k1 s) as [e s'|f s'].
    + exfalso. destruct Hspec as (_ & _ & v0' & v1' & i & ? & ? & Hfind).
      simplify_eq. apply list_find_Some in Hfind as (Hi & Hinc & _).
      apply (Hnone e); [by eapply list_elem_of_lookup_2|done].
    + destruct Hspec as (-> & [[-> _]|(_ & _ & [?|?])]); [done|congruence..].
  - pose proof (removeEdge_run s k0 k1 Hwf) as Hspec.
    destruct (removeEdge k0 k1 s) as [[] s'|f s'].
    + exfalso. destruct Hspec as (_ & v0' & v1' & i & e & j & ? & ? & Hfind & _).
      simplify_eq. apply list_find_Some in Hfind as (Hi & Hinc & _).
      apply (Hnone e); [by eapply list_elem_of_lookup_2|done].
    + destruct Hspec as (-> & [[-> _]|(_ & _ & [?|?])]); [done|congruence..].
Qed.

(** X7. In a reachable state, when [getEdge(k0, k1)] returns, so does
    [getEdge(k1, k0)]; both edges are listed by both vertices; and when
    exactly one edge joins the two vertices they are the same edge. *)
Theorem getEdge_symmetric s k0 k1 e0 :
  reachable s → getEdge k0 k1 s = Return e0 s →
  ∃ v0 v1 e1, vertices s !! k0 = Some v0 ∧ vertices s !! k1 = Some v1 ∧
    getEdge k1 k0 s = Return e1 s ∧
    e0 ∈ adj s v0 ∧ e0 ∈ adj s v1 ∧ e1 ∈ adj s v0 ∧ e1 ∈ adj s v1 ∧
    (length (filter (λ x, incident s v1 x) (adj s v0)) = 1%nat → e1 = e0).
Proof.
  intros Hwf%reachable_wf Hrun. pose proof (wf_store s Hwf) as Hst.
  pose proof (getEdge_run s k0 k1 Hwf) as Hspec. rewrite Hrun in Hspec.
  destruct Hspec as (_ & Hk & v0 & v1 & i & Hk0 & Hk1 & Hfind).
  assert (v0 ≠ v1) as Hne by (intros ->; by apply Hk, (ok_inj s Hst k0 k1 v1)).
  destruct (found_edge_ends s v0 v1 i e0 Hwf Hne Hfind) as (ed & Hed & Hi & He1 & Hv1).
  assert (e0 ∈ adj s v0) as He0 by by eapply list_elem_of_lookup_2.
  destruct (getEdge_finds s k1 k0 v1 v0 e0)
    as (i1 & e1 & ed1 & Hg1 & Hf1 & Hed1 & Hp1);
    [done|by apply not_eq_sym|done|done|done|by apply listed_incident|].
  apply list_find_Some in Hf1 as (Hi1 & Hinc1 & _).
  assert (e1 ∈ adj s v1) as H11 by by eapply list_elem_of_lookup_2.
  assert (e1 ∈ adj s v0) as H10.
  { apply (wf_endpoints s v1 e1 ed1 Hwf H11 Hed1). destruct Hp1 as [-> | ->]; eauto. }
  exists v0, v1, e1. do 7 (split; [done|]). intros Hone.
  apply list_find_Some in Hfind as (_ & Hinc0 & _).
  assert (e0 ∈ filter (λ x, incident s v1 x) (adj s v0)) as Hf0
    by by apply list_elem_of_filter.
  assert (e1 ∈ filter (λ x, incident s v1 x) (adj s v0)) as Hf1'
    by (apply list_elem_of_filter; split; [by apply listed_incident|done]).
  destruct (filter _ (adj s v0)) as [|x [|y l]]; simpl in Hone; try lia.
  apply list_elem_of_singleton in Hf0, Hf1'. congruence.
Qed.

(** X8. In a reachable state, two different keys of the map whose
    vertices no edge joins: [getEdge] and [removeEdge], with the keys in
    either order, stop at their assertion and leave the state as it
    was. *)
Theorem missing_edge_fails s k0 k1 v0 v1 :
  reachable s → k0 ≠ k1 →
  vertices s !! k0 = Some v0 → vertices s !! k1 = Some v1 →
  (∀ x, x ∈ adj s v0 → ¬ incident s v1 x) →
  getEdge k0 k1 s = Halt AssertionFailed s ∧
  getEdge k1 k0 s = Halt AssertionFailed s ∧
  removeEdge k0 k1 s = Halt AssertionFailed s ∧
  removeEdge k1 k0 s = Halt AssertionFailed s.
Proof.
  intros Hwf%reachable_wf Hk Hk0 Hk1 Hnone.
  destruct (no_edge_halts s k0 k1 v0 v1) as [? ?]; [done..|].
  destruct (no_edge_halts s k1 k0 v1 v0) as [? ?];
    [done|by apply not_eq_sym|done|done|by apply unjoined_sym|].
  done.
Qed.

(** X9. In a reachable state, when exactly one edge joins the vertices
    at [k0] and [k1], [removeEdge(k0, k1)] returns and afterwards
    [getEdge] in either order and a second [removeEdge] stop at their
    assertion. *)
Theorem removeEdge_only_edge s k0 k1 v0 v1 :
  reachable s → k0 ≠ k1 →
  vertices s !! k0 = Some v0 → vertices s !! k1 = Some v1 →
  length (filter (λ x, incident s v1 x) (adj s v0)) = 1%nat →
  ∃ s', removeEdge k0 k1 s = Return tt s' ∧
    getEdge k0 k1 s' = Halt AssertionFailed s' ∧
    getEdge k1 k0 s' = Halt AssertionFailed s' ∧
    removeEdge k0 k1 s' = Halt AssertionFailed s' ∧
    removeEdge k1 k0 s' = Halt AssertionFailed s'.
Proof.
  intros Hwf%reachable_wf Hk Hk0 Hk1 Hone.
  destruct (filter (λ x, incident s v1 x) (adj s v0)) as [|a [|b l]] eqn:Hf;
    simpl in Hone; try lia.
  assert (∀ x, x ∈ adj s v0 → incident s v1 x → x = a) as Honly.
  { intros x Hx Hinc.
    assert (x ∈ filter (λ x, incident s v1 x) (adj s v0)) as Hin
      by by apply list_elem_of_filter.
    rewrite Hf in Hin. by apply list_elem_of_singleton in Hin. }
  pose proof (removeEdge_run s k0 k1 Hwf) as Hspec.
  destruct (removeEdge k0 k1 s) as [[] s'|f s'] eqn:Hrun.
  2: { exfalso.
       destruct Hspec as (_ & [(_ & [?|Hnone])|(_ & _ & [?|?])]); try congruence.
       destruct Hnone as (v0' & v1' & ? & ? & Hnone). simplify_eq.
       apply list_find_None in Hnone. rewrite Forall_forall in Hnone.
       assert (a ∈ filter (λ x, incident s v1 x) (adj s v0)) as Ha
         by (rewrite Hf; by left).
       apply list_elem_of_filter in Ha as [Ha Hin]. by eapply Hnone. }
  clear Hspec.
  destruct (removeEdge_detached s k0 k1 s' Hwf Hrun)
    as (v0' & v1' & i & e & _ & ? & ? & _ & Hfind & _ & _ & Hd). simplify_eq.
  pose proof (detached_wf _ _ _ Hwf Hd) as Hwf'.
  apply list_find_Some in Hfind as (Hi & Hinc & _).
  assert (e = a) as -> by (apply Honly; [by eapply list_elem_of_lookup_2|done]).
  assert (∀ x, x ∈ adj s' v0 → ¬ incident s' v1 x) as Hnone.
  { intros x [Hx Hnot]%(dt_adj _ _ _ Hd) Hinc'. apply Hnot.
    apply list_elem_of_singleton. apply Honly; [done|].
    unfold incident in *. by rewrite (dt_eheap _ _ _ Hd) in Hinc'. }
  exists s'. split; [done|].
  rewrite <- (dt_vertices _ _ _ Hd) in Hk0, Hk1.
  destruct (no_edge_halts s' k0 k1 v0 v1) as [? ?]; [done..|].
  destruct (no_edge_halts s' k1 k0 v1 v0) as [? ?];
    [done|by apply not_eq_sym|done|done|by apply unjoined_sym|].
  done.
Qed.

(** ** Counting edges *)

(** X10. In a reachable state [addEdge] on two different keys of the
    map always returns, however many edges already join the two
    vertices: the new edge comes last in both sequences, both degrees go
    up by one, the number of distinct edges goes up by one, and no other
    vertex is touched. *)
Theorem addEdge_always_adds s k0 k1 v0 v1 d :
  reachable s → k0 ≠ k1 →
  vertices s !! k0 = Some v0 → vertices s !! k1 = Some v1 →
  ∃ s' e, addEdge k0 k1 d s = Return tt s' ∧
    eheap s !! e = None ∧
    eheap s' !! e = Some (mkEdge (v0, v1) d) ∧
    adj s' v0 = adj s v0 ++ [e] ∧ adj s' v1 = adj s v1 ++ [e] ∧
    degree s' v0 = S (degree s v0) ∧ degree s' v1 = S (degree s v1) ∧
    edge_count s' = S (edge_count s) ∧
    (∀ p, p ≠ v0 → p ≠ v1 → vheap s' !! p = vheap s !! p).
Proof.
  intros Hwf%reachable_wf Hk Hk0 Hk1. pose proof (wf_store s Hwf) as Hst.
  pose proof (addEdge_run s k0 k1 d Hst) as Hspec.
  destruct (addEdge k0 k1 d s) as [[] s'|f s'] eqn:Hrun.
  2: { exfalso. destruct Hspec as (_ & [[_ ?]|(_ & _ & [?|?])]); congruence. }
  clear Hspec.
  destruct (addEdge_linked s k0 k1 d s' Hst Hrun)
    as (v0' & v1' & _ & ? & ? & Hne & Hl). simplify_eq.
  pose proof (λ p, linked_unlisted s s' _ v0 v1 d p (wf_incident s Hwf) Hl) as Hun.
  set (e := fresh (dom (eheap s))) in *.
  assert (adj s' v0 = adj s v0 ++ [e]) as Ha0
    by (rewrite (lk_adj _ _ _ _ _ _ Hl); by rewrite bool_decide_eq_true_2 by tauto).
  assert (adj s' v1 = adj s v1 ++ [e]) as Ha1
    by (rewrite (lk_adj _ _ _ _ _ _ Hl); by rewrite bool_decide_eq_true_2 by tauto).
  exists s', e. split; [done|]. split; [apply (lk_fresh _ _ _ _ _ _ Hl)|].
  split; [rewrite (lk_eheap _ _ _ _ _ _ Hl); by rewrite lookup_insert_eq|].
  do 2 (split; [done|]).
  split; [unfold degree; rewrite Ha0, length_app; simpl; lia|].
  split; [unfold degree; rewrite Ha1, length_app; simpl; lia|].
  split; [|apply (lk_keep _ _ _ _ _ _ Hl)].
  assert (edge_set s' = {[e]} ∪ edge_set s) as Hset.
  { apply set_eq. intros x. rewrite elem_of_union, elem_of_singleton, !edge_set_spec.
    rewrite (lk_vertices _ _ _ _ _ _ Hl). split.
    - intros (k & p & Hkp & Hx). rewrite (lk_adj _ _ _ _ _ _ Hl) in Hx.
      case_bool_decide; [|right; eauto].
      apply elem_of_app in Hx as [Hx|Hx%list_elem_of_singleton]; [right|left]; eauto.
    - intros [->|(k & p & Hkp & Hx)].
      + exists k0, v0. split; [done|]. rewrite Ha0, elem_of_app. right. by left.
      + exists k, p. split; [done|]. rewrite (lk_adj _ _ _ _ _ _ Hl).
        case_bool_decide; [|done]. apply elem_of_app. by left. }
  unfold edge_count. rewrite Hset, size_union, size_singleton; [done|].
  intros x ->%elem_of_singleton (k & p & _ & Hx)%edge_set_spec. by apply (Hun p).
Qed.

(** X11. In a reachable state a [removeEdge] that returns takes the
    number of distinct edges down by exactly one and the degrees of the
    two vertices down by one each, and leaves the degree of every other
    vertex as it was. *)
Theorem removeEdge_counts s k0 k1 s' :
  reachable s → removeEdge k0 k1 s = Return tt s' →
  ∃ v0 v1, vertices s !! k0 = Some v0 ∧ vertices s !! k1 = Some v1 ∧
    S (edge_count s') = edge_count s ∧
    S (degree s' v0) = degree s v0 ∧ S (degree s' v1) = degree s v1 ∧
    (∀ p, p ≠ v0 → p ≠ v1 → degree s' p = degree s p).
Proof.
  intros Hwf%reachable_wf Hrun. pose proof (wf_store s Hwf) as Hst.
  pose proof (removeEdge_run s k0 k1 Hwf) as Hspec. rewrite Hrun in Hspec.
  destruct Hspec as (Hk & v0 & v1 & i & e & j & Hk0 & Hk1 & Hfind & Hj & Hs').
  destruct (removeEdge_detached s k0 k1 s' Hwf Hrun)
    as (v0' & v1' & i' & e' & _ & ? & ? & Hne & Hfind' & He1 & Hends & Hd).
  simplify_eq.
  assert (is_Some (vheap s !! v0)) as Hl0 by by eapply ok_live.
  assert (is_Some (vheap s !! v1)) as Hl1 by by eapply ok_live.
  apply list_find_Some in Hfind as (Hi & _ & _).
  apply std_find_Some in Hj.
  pose proof (lookup_lt_Some _ _ _ Hi). pose proof (lookup_lt_Some _ _ _ Hj).
  exists v0, v1. do 2 (split; [done|]).
  split.
  { assert (edge_set (put_edges v1 (swap_pop j (adj s v1))
                        (put_edges v0 (swap_pop i (adj s v0)) s))
            = edge_set s ∖ {[e]}) as Hset.
    { apply set_eq. intros x.
      rewrite elem_of_difference, elem_of_singleton, !edge_set_spec.
      rewrite (dt_vertices _ _ _ Hd). split.
      - intros (k & p & Hkp & [Hx Hnot]%(dt_adj _ _ _ Hd)).
        rewrite list_elem_of_singleton in Hnot. split; [by exists k, p|done].
      - intros [(k & p & Hkp & Hx) Hnot]. exists k, p. split; [done|].
        apply (dt_adj _ _ _ Hd). by rewrite list_elem_of_singleton. }
    unfold edge_count. rewrite Hset.
    assert ({[e]} ⊆ edge_set s) as Hsub.
    { intros x ->%elem_of_singleton. apply edge_set_spec. exists k0, v0.
      split; [done|]. by eapply list_elem_of_lookup_2. }
    rewrite size_difference by done. pose proof (subseteq_size _ _ Hsub) as Hle.
    rewrite size_singleton in *. lia. }
  split.
  { unfold degree. rewrite put_edges_adj_ne by done.
    rewrite put_edges_adj_eq by done. rewrite (swap_pop_length i _ e) by done. lia. }
  split.
  { unfold degree. rewrite put_edges_adj_eq by by apply put_edges_live.
    rewrite (swap_pop_length j _ e) by done. lia. }
  intros p Hp0 Hp1. unfold degree. by rewrite !put_edges_adj_ne.
Qed.

(** ** Undoing an edge *)

Lemma swap_pop_last (l : list positive) x : swap_pop (length l) (l ++ [x]) = l.
Proof.
  unfold swap_pop. rewrite last_snoc.
  rewrite list_insert_id by (by rewrite list_lookup_middle).
  apply pop_back_snoc.
Qed.

Lemma lookup_snoc_new (l : list positive) x i :
  x ∉ l → (l ++ [x]) !! i = Some x → i = length l.
Proof.
  intros Hx Hi. destruct (decide (i < length l)%nat) as [Hlt|Hge].
  - rewrite lookup_app_l in Hi by done. exfalso.
    apply Hx. by eapply list_elem_of_lookup_2.
  - apply lookup_lt_Some in Hi. rewrite length_app in Hi. simpl in Hi. lia.
Qed.

(** X12. In a reachable state, with no edge yet between the vertices at
    [k0] and [k1]: [addEdge(k0, k1, data)] followed by
    [removeEdge(k0, k1)] returns, and every vertex, with its sequence in
    the order it had, the map and the counter are as before the first
    call. *)
Theorem addEdge_then_removeEdge s k0 k1 v0 v1 d :
  reachable s → k0 ≠ k1 →
  vertices s !! k0 = Some v0 → vertices s !! k1 = Some v1 →
  (∀ x, x ∈ adj s v0 → ¬ incident s v1 x) →
  ∃ s', (addEdge k0 k1 d;; removeEdge k0 k1) s = Return tt s' ∧
    vheap s' = vheap s ∧ vertices s' = vertices s ∧ gsize s' = gsize s.
Proof.
  intros Hwf%reachable_wf Hk Hk0 Hk1 Hnone. pose proof (wf_store s Hwf) as Hst.
  pose proof (addEdge_run s k0 k1 d Hst) as Hspec.
  rewrite bind_run.
  destruct (addEdge k0 k1 d s) as [[] s1|f s1] eqn:Hadd.
  2: { exfalso. destruct Hspec as (_ & [[_ ?]|(_ & _ & [?|?])]); congruence. }
  destruct Hspec as (v0' & v1' & _ & ? & ? & Hne & Hs1). simplify_eq.
  pose proof (addEdge_wf s k0 k1 d _ Hwf Hadd) as Hwf1.
  destruct (addEdge_linked s k0 k1 d _ Hst Hadd)
    as (v0' & v1' & _ & ? & ? & _ & Hl). simplify_eq.
  pose proof (λ p, linked_unlisted s _ _ v0 v1 d p (wf_incident s Hwf) Hl) as Hun.
  set (e := fresh (dom (eheap s))) in *.
  set (s0 := mkState (vheap s) (<[e := mkEdge (v0, v1) d]> (eheap s))
                     (gsize s) (vertices s)) in *.
  set (s1 := put_edges v1 (adj s v1 ++ [e]) (put_edges v0 (adj s v0 ++ [e]) s0)) in *.
  assert (adj s1 v0 = adj s v0 ++ [e]) as Ha0
    by (rewrite (lk_adj _ _ _ _ _ _ Hl); by rewrite bool_decide_eq_true_2 by tauto).
  assert (adj s1 v1 = adj s v1 ++ [e]) as Ha1
    by (rewrite (lk_adj _ _ _ _ _ _ Hl); by rewrite bool_decide_eq_true_2 by tauto).
  pose proof (removeEdge_run s1 k0 k1 Hwf1) as Hspec.
  destruct (removeEdge k0 k1 s1) as [[] s2|f s2] eqn:Hrem.
  2: { exfalso.
       destruct Hspec as (_ & [(_ & [?|Hno])|(_ & _ & [Hno|Hno])]); try done.
       - destruct Hno as (v0' & v1' & Hk0' & Hk1' & Hno).
         rewrite (lk_vertices _ _ _ _ _ _ Hl) in Hk0', Hk1'. simplify_eq.
         apply list_find_None in Hno. rewrite Forall_forall in Hno.
         apply (Hno e); [rewrite Ha0, elem_of_app; right; by left|].
         apply incident_spec. eexists. split.
         + rewrite (lk_eheap _ _ _ _ _ _ Hl). apply lookup_insert_eq.
         + simpl. by right.
       - rewrite (lk_vertices _ _ _ _ _ _ Hl) in Hno. congruence.
       - rewrite (lk_vertices _ _ _ _ _ _ Hl) in Hno. congruence. }
  destruct Hspec as (_ & v0' & v1' & i & e' & j & Hk0' & Hk1' & Hfind & Hj & ->).
  rewrite (lk_vertices _ _ _ _ _ _ Hl) in Hk0', Hk1'. simplify_eq.
  assert (e' = e) as ->.
  { rewrite Ha0 in Hfind. eapply find_snoc_new; [|exact Hfind].
    intros y Hy. cbv beta. rewrite (linked_incident_old s s1 e v0 v1 d v1 y Hl).
    - by apply Hnone.
    - intros ->. by apply (Hun v0). }
  apply list_find_Some in Hfind as (Hi & _ & _). apply std_find_Some in Hj.
  rewrite Ha0 in Hi. rewrite Ha1 in Hj.
  apply lookup_snoc_new in Hi; [|apply Hun]. apply lookup_snoc_new in Hj; [|apply Hun].
  subst i j. rewrite Ha0, Ha1, !swap_pop_last.
  eexists. split; [done|].
  split; [|unfold s1; by rewrite !put_edges_vertices, !put_edges_gsize].
  apply map_eq. intros q. unfold s1. rewrite !put_edges_lookup. simpl.
  destruct (ok_live s Hst k0 v0 Hk0) as [[l0 d0] Hv0].
  destruct (ok_live s Hst k1 v1 Hk1) as [[l1 d1] Hv1].
  assert (adj s v0 = l0) as -> by (unfold adj; by rewrite Hv0).
  assert (adj s v1 = l1) as -> by (unfold adj; by rewrite Hv1).
  repeat case_decide; simplify_eq; rewrite ?Hv0, ?Hv1; done.
Qed.

(** ** Payloads *)

(** X13. An operation that returns from a reachable state writes no
    payload and no slot of an edge: a vertex that is stored at a key
    before and after the call has the payload it had, and an edge that
    is listed before and after the call has the two vertices and the
    payload it had. *)
Theorem operations_keep_payloads s o a s' :
  reachable s → run_op o s = Return a s' →
  (∀ k p v, vertices s !! k = Some p → vertices s' !! k = Some p →
     vheap s !! p = Some v →
     ∃ v', vheap s' !! p = Some v' ∧ vdata v' = vdata v) ∧
  (∀ q q' e ed, e ∈ adj s q → e ∈ adj s' q' →
     eheap s !! e = Some ed → eheap s' !! e = Some ed).
Proof.
  intros Hwf%reachable_wf Hrun.
  destruct (run_op_store s o a s' Hwf Hrun) as [Hv He].
  split; [intros k p v _ _; apply Hv|intros q q' e ed _ _; apply He].
Qed.


(** ** What removal does to the sequences *)

(** X14. After [removeVertex(k)] on a reachable graph the sequence of
    every vertex holds, in some order, exactly the edges it held that
    the removed vertex did not list; a vertex that shared no edge with
    the removed one is left as it was, order included; and the removed
    vertex lists nothing. *)
Theorem removeVertex_neighbours s k old s' :
  reachable s → vertices s !! k = Some old →
  removeVertex k s = Return tt s' →
  (∀ p, adj s' p ≡ₚ filter (λ x, x ∉ adj s old) (adj s p)) ∧
  (∀ p, (∀ x, x ∈ adj s old → x ∉ adj s p) → vheap s' !! p = vheap s !! p) ∧
  adj s' old = [].
Proof.
  intros Hwf%reachable_wf Hk Hrun.
  pose proof (removeVertex_run s k Hwf) as Hspec. rewrite Hrun in Hspec.
  destruct Hspec as (old' & s1 & Hk' & Hd & ->). simplify_eq.
  assert (∀ p, adj (mkState (vheap s1) (eheap s1) (size_t_wrap (gsize s1 - 1))
                            (delete k (vertices s1))) p = adj s1 p) as Hadj by done.
  split; [|split].
  - intros p. rewrite Hadj. apply NoDup_Permutation.
    + apply (dt_nodup _ _ _ Hd).
    + apply NoDup_filter, (ok_nodup s (wf_store s Hwf)).
    + intros x. rewrite (dt_adj _ _ _ Hd), list_elem_of_filter. tauto.
  - intros p Hp. simpl. by apply (dt_keep _ _ _ Hd).
  - rewrite Hadj. apply elem_of_nil_inv. intros x [? ?]%(dt_adj _ _ _ Hd). done.
Qed.

Lemma swap_pop_lookup (l : list positive) i b j :
  last l = Some b → (j < pred (length l))%nat →
  swap_pop i l !! j = if decide (j = i) then Some b else l !! j.
Proof.
  intros Hlast Hj. unfold swap_pop, pop_back. rewrite Hlast.
  rewrite length_insert, lookup_take_lt by done.
  case_decide as Hd.
  - subst j. apply list_lookup_insert_eq. lia.
  - by apply list_lookup_insert_ne.
Qed.

(** X15. [removeEdge] does not keep the order of the first vertex's
    sequence: the sequence gets one shorter, the edge that was last
    takes the place of the removed one, and every other edge keeps its
    place. *)
Theorem removeEdge_reorders s k0 k1 s' :
  reachable s → removeEdge k0 k1 s = Return tt s' →
  ∃ v0 v1 i e b, vertices s !! k0 = Some v0 ∧ vertices s !! k1 = Some v1 ∧
    adj s v0 !! i = Some e ∧ incident s v1 e ∧
    last (adj s v0) = Some b ∧
    length (adj s' v0) = pred (length (adj s v0)) ∧
    ∀ j, (j < length (adj s' v0))%nat →
      adj s' v0 !! j = if decide (j = i) then Some b else adj s v0 !! j.
Proof.
  intros Hwf%reachable_wf Hrun. pose proof (wf_store s Hwf) as Hst.
  pose proof (removeEdge_run s k0 k1 Hwf) as Hspec. rewrite Hrun in Hspec.
  destruct Hspec as (Hk & v0 & v1 & i & e & j & Hk0 & Hk1 & Hfind & Hj & ->).
  assert (v0 ≠ v1) as Hne by (intros ->; by apply Hk, (ok_inj s Hst k0 k1 v1)).
  assert (is_Some (vheap s !! v0)) as Hl0 by by eapply ok_live.
  apply list_find_Some in Hfind as (Hi & Hinc & _).
  destruct (last (adj s v0)) as [b|] eqn:Hlast.
  2: { apply last_None in Hlast. by rewrite Hlast in Hi. }
  assert (adj (put_edges v1 (swap_pop j (adj s v1))
                 (put_edges v0 (swap_pop i (adj s v0)) s)) v0
          = swap_pop i (adj s v0)) as Hadj
    by (rewrite put_edges_adj_ne by done; by rewrite put_edges_adj_eq).
  exists v0, v1, i, e, b. do 5 (split; [done|]). rewrite Hadj.
  rewrite (swap_pop_length i _ e) by done. split; [done|].
  intros j' Hj'. by apply swap_pop_lookup.
Qed.

(** ** Counting who lists an edge *)

Lemma sum_list_fmap_const {A} (l : list A) n :
  sum_list ((λ _, n) <$> l) = (length l * n)%nat.
Proof. induction l as [|x l IH]; csimpl; [done|]. rewrite IH. lia. Qed.

Lemma sum_list_fmap_ext {A} (f g : A → nat) (l : list A) :
  (∀ x, x ∈ l → f x = g x) → sum_list (f <$> l) = sum_list (g <$> l).
Proof.
  intros Hfg. induction l as [|x l IH]; csimpl; [done|].
  rewrite (Hfg x) by by left. rewrite IH; [done|]. intros y Hy. apply Hfg. by right.
Qed.

(** Counting the pairs of a relation row by row or column by column. *)
Lemma count_swap {A B} (R : A → B → Prop) `{∀ a b, Decision (R a b)}
    (la : list A) (lb : list B) :
  sum_list ((λ a, length (filter (R a) lb)) <$> la) =
  sum_list ((λ b, length (filter (λ a, R a b) la)) <$> lb).
Proof.
  induction la as [|a la IH]; csimpl.
  - induction lb as [|b lb IHb]; csimpl; [done|exact IHb].
  - rewrite IH. clear IH. induction lb as [|b lb IH]; csimpl; [done|].
    rewrite !filter_cons. destruct (decide (R a b)); csimpl; lia.
Qed.

(** The entries of the map whose vertex lists [e] are as many as the
    vertices that list [e]. *)
Lemma map_listers_count s e :
  wf s →
  length (filter (λ kv : Key * positive, e ∈ adj s kv.2) (map_to_list (vertices s)))
  = size (listers s e).
Proof.
  intros Hwf. pose proof (wf_store s Hwf) as Hst.
  set (F := filter _ _).
  assert (∀ kv, kv ∈ F ↔ vertices s !! kv.1 = Some kv.2 ∧ e ∈ adj s kv.2) as HF.
  { intros [k p]. unfold F. rewrite list_elem_of_filter, elem_of_map_to_list. tauto. }
  assert (NoDup F.*2) as Hnd.
  { apply NoDup_fmap_2_strong.
    - intros [k p] [k' p'] [Hk _]%HF [Hk' _]%HF Heq. simpl in *. subst p'.
      by rewrite (ok_inj s Hst k k' p Hk Hk').
    - apply NoDup_filter, NoDup_map_to_list. }
  assert (listers s e = list_to_set F.*2) as ->.
  { apply set_eq. intros p. rewrite listers_spec, elem_of_list_to_set, list_elem_of_fmap.
    split.
    - intros Hp. destruct (ok_owned s Hst p e Hp) as [k Hk].
      exists (k, p). split; [done|]. by apply HF.
    - intros ([k p'] & -> & [_ Hp]%HF). done. }
  by rewrite size_list_to_set, length_fmap.
Qed.

Lemma wf_listers_two s p e : wf s → e ∈ adj s p → size (listers s e) = 2%nat.
Proof.
  intros Hwf He. destruct (wf_incident s Hwf p e He) as (ed & Hed & _).
  pose proof (wf_noloop s Hwf e ed Hed) as Hloop.
  rewrite (listers_pair s e _ _ (wf_endpoints s p e ed Hwf He Hed)).
  rewrite size_union by set_solver. by rewrite !size_singleton.
Qed.

Lemma wf_handshake s : wf s → degree_sum s = (2 * edge_count s)%nat.
Proof.
  intros Hwf. pose proof (wf_store s Hwf) as Hst.
  unfold degree_sum, edge_count.
  rewrite (sum_list_fmap_ext _
    (λ kv, length (filter (λ e, e ∈ adj s kv.2) (elements (edge_set s))))).
  2: { intros [k p] Hkp%elem_of_map_to_list. simpl. unfold degree.
       apply Permutation_length, NoDup_Permutation.
       - apply (ok_nodup s Hst).
       - apply NoDup_filter, NoDup_elements.
       - intros x. rewrite list_elem_of_filter, elem_of_elements, edge_set_spec.
         split; [|tauto]. intros Hx. split; [done|]. eauto. }
  rewrite (count_swap (λ (kv : Key * positive) e, e ∈ adj s kv.2)).
  rewrite (sum_list_fmap_ext _ (λ _, 2%nat)).
  2: { intros e (k & p & Hkp & He)%elem_of_elements%edge_set_spec.
       rewrite map_listers_count by done. by eapply wf_listers_two. }
  rewrite sum_list_fmap_const. unfold size, set_size. simpl. lia.
Qed.

(** X16. In a reachable graph the degrees of the vertices of the map
    add up to twice the number of distinct edges. *)
Theorem degree_sum_twice_edge_count s :
  reachable s → degree_sum s = (2 * edge_count s)%nat.
Proof. intros Hwf%reachable_wf. by apply wf_handshake. Qed.

(** ** The debugging output *)

Lemma count_NoDup (l : list positive) x :
  NoDup l → length (filter (λ e, e = x) l) = if decide (x ∈ l) then 1%nat else 0%nat.
Proof.
  induction 1 as [|y l Hy Hnd IH]; [done|].
  rewrite filter_cons. destruct (decide (y = x)) as [->|Hne]; simpl.
  - rewrite IH. rewrite (decide_True (P:=x ∈ x :: l)) by by left.
    by rewrite (decide_False (P:=x ∈ l)).
  - rewrite IH. destruct (decide (x ∈ l)) as [Hx|Hx].
    + rewrite (decide_True (P:=x ∈ y :: l)); [done|by right].
    + rewrite (decide_False (P:=x ∈ y :: l)); [done|].
      by intros [?|?]%elem_of_cons.
Qed.

Lemma print_edges_run s l :
  (∀ e, e ∈ l → is_Some (eheap s !! e)) →
  ∃ ls, print_edges l s = Return ls s ∧
    length ls = length l ∧
    (∀ x, length (filter (λ ln, is_edge_line x ln) ls)
          = length (filter (λ e, e = x) l)) ∧
    (∀ ln, ln ∈ ls ↔
       ∃ e ed, e ∈ l ∧ eheap s !! e = Some ed ∧
               ln = EdgeLine e (evertices ed).1 (evertices ed).2).
Proof.
  induction l as [|e l IH]; intros Hlive.
  - exists []. split; [done|]. split; [done|]. split; [done|].
    intros ln. split; [by intros ?%elem_of_nil|].
    by intros (? & ? & ?%elem_of_nil & _).
  - destruct (Hlive e) as [ed Hed]; [by left|].
    destruct IH as (ls & Hrun & Hlen & Hcount & Hmem);
      [intros; apply Hlive; by right|].
    exists (EdgeLine e (evertices ed).1 (evertices ed).2 :: ls).
    split; [|split; [|split]].
    + simpl. rewrite bind_run, (get_evertices_run _ _ _ Hed), bind_run, Hrun. done.
    + simpl. by rewrite Hlen.
    + intros x. rewrite !filter_cons. simpl.
      destruct (decide (e = x)) as [->|Hne].
      * rewrite decide_True by by apply bool_decide_pack. simpl. by rewrite Hcount.
      * rewrite decide_False by (by intros ?%bool_decide_unpack). apply Hcount.
    + intros ln. rewrite elem_of_cons, Hmem. split.
      * intros [->|(e' & ed' & He' & Hed' & ->)].
        -- exists e, ed. split; [by left|done].
        -- exists e', ed'. split; [by right|done].
      * intros (e' & ed' & [->|He']%elem_of_cons & Hed' & ->).
        -- left. by simplify_eq.
        -- right. by exists e', ed'.
Qed.

Lemma print_vertices_run s kvs :
  wf s → (∀ kv, kv ∈ kvs → vertices s !! kv.1 = Some kv.2) →
  ∃ ls, print_vertices kvs s = Return ls s ∧
    length ls = (length kvs + sum_list ((λ kv, degree s kv.2) <$> kvs))%nat ∧
    (∀ x, length (filter (λ ln, is_edge_line x ln) ls)
          = length (filter (λ kv : Key * positive, x ∈ adj s kv.2) kvs)) ∧
    (∀ ln, ln ∈ ls ↔
       (∃ kv, kv ∈ kvs ∧ ln = VertexLine kv.2) ∨
       (∃ kv e ed, kv ∈ kvs ∧ e ∈ adj s kv.2 ∧ eheap s !! e = Some ed ∧
                   ln = EdgeLine e (evertices ed).1 (evertices ed).2)).
Proof.
  intros Hwf. pose proof (wf_store s Hwf) as Hst.
  induction kvs as [|[k p] kvs IH]; intros Hmap.
  - exists []. split; [done|]. split; [done|]. split; [done|].
    intros ln. split; [by intros ?%elem_of_nil|].
    intros [(? & ?%elem_of_nil & _)|(? & ? & ? & ?%elem_of_nil & _)]; done.
  - assert (vertices s !! k = Some p) as Hk by (apply (Hmap (k, p)); by left).
    destruct IH as (ls2 & Hrun2 & Hlen2 & Hcount2 & Hmem2);
      [intros; apply Hmap; by right|].
    destruct (print_edges_run s (adj s p)) as (ls1 & Hrun1 & Hlen1 & Hcount1 & Hmem1);
      [intros; by eapply wf_edge_live|].
    exists (VertexLine p :: ls1 ++ ls2). split; [|split; [|split]].
    + simpl. rewrite bind_run, get_edges_run by by eapply ok_live.
      by rewrite bind_run, Hrun1, bind_run, Hrun2.
    + csimpl. rewrite length_app, Hlen1, Hlen2. unfold degree. lia.
    + intros x. rewrite (filter_cons (λ ln : line, is_edge_line x ln)).
      rewrite (decide_False (P:=Is_true (is_edge_line x (VertexLine p)))) by exact id.
      rewrite filter_app, length_app, Hcount1, Hcount2.
      rewrite count_NoDup by apply (ok_nodup s Hst).
      rewrite (filter_cons (λ kv : Key * positive, x ∈ adj s kv.2)). simpl.
      by destruct (decide (x ∈ adj s p)).
    + intros ln. rewrite elem_of_cons, elem_of_app, Hmem1, Hmem2. split.
      * intros [->|[(e & ed & He & Hed & ->)|[(kv & Hkv & ->)|(kv & e & ed & Hkv & He & Hed & ->)]]].
        -- left. exists (k, p). split; [by left|done].
        -- right. exists (k, p), e, ed. split; [by left|done].
        -- left. exists kv. split; [by right|done].
        -- right. exists kv, e, ed. split; [by right|done].
      * intros [(kv & [->|Hkv]%elem_of_cons & ->)|(kv & e & ed & [->|Hkv]%elem_of_cons & He & Hed & ->)].
        -- by left.
        -- right. right. left. by exists kv.
        -- right. left. by exists e, ed.
        -- right. right. right. by exists kv, e, ed.
Qed.

(** X17. [operator<<] on a reachable graph writes, after the line of
    the graph, one line for each vertex of the map and, under it, one
    line for each edge of its sequence with the two slots of the edge:
    as many lines as there are vertices plus twice as many as there are
    distinct edges, every edge of the graph on exactly two of them, and
    the graph is left as it was. *)
Theorem print_lists_the_graph s g :
  reachable s →
  ∃ ls, print g s = Return (GraphLine g :: ls) s ∧
    length ls = (size (vertices s) + 2 * edge_count s)%nat ∧
    (∀ p, VertexLine p ∈ ls ↔ ∃ k, vertices s !! k = Some p) ∧
    (∀ e a b, EdgeLine e a b ∈ ls ↔
       e ∈ edge_set s ∧ ∃ ed, eheap s !! e = Some ed ∧ evertices ed = (a, b)) ∧
    (∀ e, e ∈ edge_set s →
       length (filter (λ ln, is_edge_line e ln) ls) = 2%nat) ∧
    (∀ g', GraphLine g' ∉ ls).
Proof.
  intros Hwf%reachable_wf.
  destruct (print_vertices_run s (map_to_list (vertices s)) Hwf)
    as (ls & Hrun & Hlen & Hcount & Hmem).
  { intros [k p]. by rewrite elem_of_map_to_list. }
  exists ls. split; [unfold print; by rewrite bind_run, Hrun|].
  split.
  { rewrite Hlen, length_map_to_list. fold (degree_sum s).
    by rewrite wf_handshake. }
  split.
  { intros p. rewrite Hmem. split.
    - intros [([k p'] & Hkv%elem_of_map_to_list & [= ->])|(? & ? & ? & _ & _ & _ & ?)];
        [eauto|done].
    - intros [k Hk]. left. exists (k, p). by rewrite elem_of_map_to_list. }
  split.
  { intros e a b. rewrite Hmem, edge_set_spec. split.
    - intros [(? & _ & ?)|([k p] & e' & ed & Hkv%elem_of_map_to_list & He & Hed & Heq)];
        [done|]. simpl in *. injection Heq as -> -> ->.
      split; [eauto|]. exists ed. split; [done|]. by destruct (evertices ed).
    - intros [(k & p & Hk & He) (ed & Hed & Hends)]. right.
      exists (k, p), e, ed. rewrite elem_of_map_to_list. by rewrite Hends. }
  split.
  { intros e (k & p & Hk & He)%edge_set_spec.
    rewrite Hcount, map_listers_count by done. by eapply wf_listers_two. }
  intros g' [(? & _ & ?)|(? & ? & ? & _ & _ & _ & ?)]%Hmem; done.
Qed.

(** ** The counter as an upper bound; parallel edges and getEdge *)

(** X18. After any sequence of returning operations from the empty
    graph (shorter than the range of [size_t]), duplicate [addVertex]
    calls included, [getSize()] is at least the number of entries of the
    map and at most the number of operations. *)
Theorem getSize_upper_bound ops s :
  exec ops Graph_new = Return tt s →
  Z.of_nat (length ops) < size_t_modulus →
  ∃ n, getSize s = Return n s ∧
       Z.of_nat (size (vertices s)) ≤ n ≤ Z.of_nat (length ops).
Proof.
  intros Hrun Hlen. exists (gsize s). split; [done|].
  destruct (exec_count_le ops Graph_new s Graph_new_wf Hrun) as [Hle Hup];
    [done|simpl; lia|]. simpl in Hup. lia.
Qed.

(** X19. In a reachable graph in which [getEdge(k0, k1)] returns an
    edge, adding another edge between the same two keys, in either
    order, does not change what [getEdge(k0, k1)] returns: the older
    edge stays in front of the new one. *)
Theorem getEdge_keeps_older_edge s k0 k1 e0 d s' :
  reachable s → getEdge k0 k1 s = Return e0 s →
  addEdge k0 k1 d s = Return tt s' ∨ addEdge k1 k0 d s = Return tt s' →
  getEdge k0 k1 s' = Return e0 s'.
Proof.
  intros Hwf%reachable_wf Hget Hadd. pose proof (wf_store s Hwf) as Hst.
  pose proof (getEdge_run s k0 k1 Hwf) as Hspec. rewrite Hget in Hspec.
  destruct Hspec as (_ & Hk & v0 & v1 & i & Hk0 & Hk1 & Hfind).
  apply list_find_Some in Hfind as (Hi & Hinc & Hfirst).
  assert (e0 ∈ adj s v0) as He0 by by eapply list_elem_of_lookup_2.
  assert (∃ a b e, wf s' ∧ linked e a b d s s' ∧ (v0 = a ∨ v0 = b)) as
    (a & b & e & Hwf' & Hl & Hv0).
  { destruct Hadd as [Hadd|Hadd].
    - destruct (addEdge_linked s k0 k1 d s' Hst Hadd) as (a & b & _ & ? & ? & _ & Hl).
      simplify_eq. exists v0, v1, (fresh (dom (eheap s))).
      split; [by eapply addEdge_wf|]. eauto.
    - destruct (addEdge_linked s k1 k0 d s' Hst Hadd) as (a & b & _ & ? & ? & _ & Hl).
      simplify_eq. exists v1, v0, (fresh (dom (eheap s))).
      split; [by eapply addEdge_wf|]. eauto. }
  pose proof (λ p, linked_unlisted s s' e a b d p (wf_incident s Hwf) Hl) as Hun.
  assert (adj s' v0 = adj s v0 ++ [e]) as Ha0
    by (rewrite (lk_adj _ _ _ _ _ _ Hl); by rewrite bool_decide_eq_true_2).
  assert (list_find (λ x, incident s' v1 x) (adj s' v0) = Some (i, e0)) as Hfind'.
  { apply list_find_Some. rewrite Ha0. split; [|split].
    - rewrite lookup_app_l; [done|]. by eapply lookup_lt_Some.
    - rewrite (linked_incident_old s s' e a b d v1 e0 Hl); [done|].
      intros ->. by apply (Hun v0).
    - intros j y Hj Hlt.
      rewrite lookup_app_l in Hj by (apply lookup_lt_Some in Hi; lia).
      rewrite (linked_incident_old s s' e a b d v1 y Hl).
      + by eapply Hfirst.
      + intros ->. apply (Hun v0). by eapply list_elem_of_lookup_2. }
  pose proof (getEdge_run s' k0 k1 Hwf') as Hspec.
  rewrite <- (lk_vertices _ _ _ _ _ _ Hl) in Hk0, Hk1.
  destruct (getEdge k0 k1 s') as [e1 s1|f s1].
  - destruct Hspec as (-> & _ & v0' & v1' & i' & ? & ? & Hfind1). by simplify_eq.
  - exfalso. destruct Hspec as (_ & [(_ & [?|Hno])|(_ & _ & [?|?])]); try congruence.
    destruct Hno as (v0' & v1' & ? & ? & Hno). by simplify_eq.
Qed.

End More.

(** * The small graph: more runs *)

Lemma addVertex_then_getVertex_witness :
  ∃ s' p, addVertex kC 3%nat s_AB = Return tt s' ∧ getVertex kC s' = Return p s' ∧
          adj s' p = [].
Proof.
  destruct (addVertex_then_getVertex s_AB kC 3%nat)
    as (s' & p & Hadd & Hget & _ & _ & Hadj & _).
  - vm_compute. reflexivity.
  - exists s', p. exact (conj Hadd (conj Hget Hadj)).
Defined.

Lemma addVertex_then_removeVertex_witness :
  ∃ s', (addVertex kC 3%nat;; removeVertex kC) s_AB_x = Return tt s' ∧
        vertices s' = vertices s_AB_x ∧ gsize s' = gsize s_AB_x.
Proof.
  destruct (addVertex_then_removeVertex s_AB_x kC 3%nat)
    as (s' & Hrun & Hmap & Hsize & _).
  - vm_compute. reflexivity.
  - vm_compute. split; [discriminate|reflexivity].
  - exists s'. exact (conj Hrun (conj Hmap Hsize)).
Defined.

Lemma missing_key_throws_witness :
  getVertex kC s_AB = Halt OutOfRange s_AB ∧
  removeVertex kC s_AB = Halt OutOfRange s_AB.
Proof.
  destruct (missing_key_throws s_AB kC) as (Hget & Hrem & _).
  - vm_compute. reflexivity.
  - exact (conj Hget Hrem).
Defined.

Lemma getKey_inverts_getVertex_witness :
  getKey 2%positive s_ABC = Return kB s_ABC ↔
  getVertex kB s_ABC = Return 2%positive s_ABC.
Proof.
  destruct (getKey_inverts_getVertex s_ABC 2%positive) as [Hinv _].
  - apply reachable_after. by vm_compute.
  - exact (Hinv kB).
Defined.

Lemma getKey_after_removeVertex_witness :
  getKey 2%positive (state_after (ops_ABC ++ [RemoveVertex kB]))
  = Halt AssertionFailed (state_after (ops_ABC ++ [RemoveVertex kB])).
Proof.
  destruct (getKey_after_removeVertex s_ABC kB 2%positive
              (state_after (ops_ABC ++ [RemoveVertex kB]))) as [Hgone _].
  - apply reachable_after. by vm_compute.
  - vm_compute. reflexivity.
  - vm_compute. reflexivity.
  - exact Hgone.
Defined.

Lemma getEdge_symmetric_witness :
  ∃ e1, getEdge kB kA s_AB_xy = Return e1 s_AB_xy.
Proof.
  destruct (getEdge_symmetric s_AB_xy kA kB 1%positive)
    as (v0 & v1 & e1 & _ & _ & Hget & _).
  - apply reachable_after. by vm_compute.
  - vm_compute. reflexivity.
  - exists e1. exact Hget.
Defined.

Lemma missing_edge_fails_witness :
  getEdge kA kC s_ABC = Halt AssertionFailed s_ABC ∧
  removeEdge kC kA s_ABC = Halt AssertionFailed s_ABC.
Proof.
  destruct (missing_edge_fails s_ABC kA kC 1%positive 3%positive)
    as (Hget & _ & _ & Hrem).
  - apply reachable_after. by vm_compute.
  - by vm_compute.
  - vm_compute. reflexivity.
  - vm_compute. reflexivity.
  - intros x Hx.
    assert (adj s_ABC 1%positive = [1%positive]) as Hadj by (vm_compute; reflexivity).
    rewrite Hadj in Hx. apply list_elem_of_singleton in Hx. subst x.
    vm_compute. exact id.
  - exact (conj Hget Hrem).
Defined.

Lemma removeEdge_only_edge_witness :
  ∃ s', removeEdge kA kB s_AB_x = Return tt s' ∧
        getEdge kB kA s' = Halt AssertionFailed s'.
Proof.
  destruct (removeEdge_only_edge s_AB_x kA kB 1%positive 2%positive)
    as (s' & Hrem & _ & Hget & _).
  - apply reachable_after. by vm_compute.
  - by vm_compute.
  - vm_compute. reflexivity.
  - vm_compute. reflexivity.
  - vm_compute. reflexivity.
  - exists s'. exact (conj Hrem Hget).
Defined.

Lemma addEdge_always_adds_witness :
  ∃ s', addEdge kA kB "y"%string s_AB_x = Return tt s' ∧
        edge_count s' = S (edge_count s_AB_x).
Proof.
  destruct (addEdge_always_adds s_AB_x kA kB 1%positive 2%positive "y"%string)
    as (s' & e & Hadd & _ & _ & _ & _ & _ & _ & Hcount & _).
  - apply reachable_after. by vm_compute.
  - by vm_compute.
  - vm_compute. reflexivity.
  - vm_compute. reflexivity.
  - exists s'. exact (conj Hadd Hcount).
Defined.

Lemma removeEdge_counts_witness :
  S (edge_count (state_after (ops_AB_xy ++ [RemoveEdge kA kB]))) = edge_count s_AB_xy.
Proof.
  destruct (removeEdge_counts s_AB_xy kA kB
              (state_after (ops_AB_xy ++ [RemoveEdge kA kB])))
    as (v0 & v1 & _ & _ & Hcount & _).
  - apply reachable_after. by vm_compute.
  - vm_compute. reflexivity.
  - exact Hcount.
Defined.

Lemma addEdge_then_removeEdge_witness :
  ∃ s', (addEdge kA kB "x"%string;; removeEdge kA kB) s_AB = Return tt s' ∧
        vheap s' = vheap s_AB.
Proof.
  destruct (addEdge_then_removeEdge s_AB kA kB 1%positive 2%positive "x"%string)
    as (s' & Hrun & Hheap & _).
  - apply reachable_after. by vm_compute.
  - by vm_compute.
  - vm_compute. reflexivity.
  - vm_compute. reflexivity.
  - intros x Hx.
    assert (adj s_AB 1%positive = []) as Hadj by (vm_compute; reflexivity).
    rewrite Hadj in Hx. by apply elem_of_nil in Hx.
  - exists s'. exact (conj Hrun Hheap).
Defined.

Lemma operations_keep_payloads_witness :
  (∃ v', vheap (state_after (ops_AB_xy ++ [RemoveEdge kA kB])) !! 1%positive = Some v' ∧
         vdata v' = 1%nat) ∧
  eheap (state_after (ops_AB_xy ++ [RemoveEdge kA kB])) !! 2%positive
  = Some (mkEdge (1%positive, 2%positive) "y"%string).
Proof.
  destruct (operations_keep_payloads s_AB_xy (RemoveEdge kA kB) tt
              (state_after (ops_AB_xy ++ [RemoveEdge kA kB]))) as [Hv He].
  - apply reachable_after. by vm_compute.
  - vm_compute. reflexivity.
  - split.
    + apply (Hv kA 1%positive (mkVertex [1%positive; 2%positive] 1%nat)).
      * vm_compute. reflexivity.
      * vm_compute. reflexivity.
      * vm_compute. reflexivity.
    + apply (He 1%positive 1%positive 2%positive).
      * assert (adj s_AB_xy 1%positive = [1%positive; 2%positive]) as Hadj
          by (vm_compute; reflexivity).
        rewrite Hadj. right. by left.
      * assert (adj (state_after (ops_AB_xy ++ [RemoveEdge kA kB])) 1%positive
                = [2%positive]) as Hadj by (vm_compute; reflexivity).
        rewrite Hadj. by left.
      * vm_compute. reflexivity.
Defined.


Lemma removeVertex_neighbours_witness :
  adj (state_after (ops_ABC ++ [RemoveVertex kB])) 2%positive = [].
Proof.
  destruct (removeVertex_neighbours s_ABC kB 2%positive
              (state_after (ops_ABC ++ [RemoveVertex kB]))) as (_ & _ & Hold).
  - apply reachable_after. by vm_compute.
  - vm_compute. reflexivity.
  - vm_compute. reflexivity.
  - exact Hold.
Defined.

Lemma removeEdge_reorders_witness :
  ∃ v0 i b,
    last (adj s_AB_xy v0) = Some b ∧
    ∀ j, (j < length (adj (state_after (ops_AB_xy ++ [RemoveEdge kA kB])) v0))%nat →
      adj (state_after (ops_AB_xy ++ [RemoveEdge kA kB])) v0 !! j
      = if decide (j = i) then Some b else adj s_AB_xy v0 !! j.
Proof.
  destruct (removeEdge_reorders s_AB_xy kA kB
              (state_after (ops_AB_xy ++ [RemoveEdge kA kB])))
    as (v0 & v1 & i & e & b & _ & _ & _ & _ & Hlast & _ & Hpos).
  - apply reachable_after. by vm_compute.
  - vm_compute. reflexivity.
  - exists v0, i, b. exact (conj Hlast Hpos).
Defined.

Lemma degree_sum_twice_edge_count_witness :
  degree_sum s_AB_xy = (2 * edge_count s_AB_xy)%nat.
Proof.
  apply degree_sum_twice_edge_count. apply reachable_after. by vm_compute.
Defined.

Lemma print_lists_the_graph_witness :
  ∃ ls, print 9%positive s_ABC = Return (GraphLine 9%positive :: ls) s_ABC ∧
        length ls = (size (vertices s_ABC) + 2 * edge_count s_ABC)%nat.
Proof.
  destruct (print_lists_the_graph s_ABC 9%positive) as (ls & Hrun & Hlen & _).
  - apply reachable_after. by vm_compute.
  - exists ls. exact (conj Hrun Hlen).
Defined.

Lemma getSize_upper_bound_witness :
  ∃ n, getSize s_ABC = Return n s_ABC ∧
       Z.of_nat (size (vertices s_ABC)) ≤ n ≤ Z.of_nat (length ops_ABC).
Proof.
  apply (getSize_upper_bound ops_ABC s_ABC).
  - vm_compute. reflexivity.
  - vm_compute. reflexivity.
Defined.

Lemma getEdge_keeps_older_edge_witness :
  getEdge kA kB s_AB_xy = Return 1%positive s_AB_xy.
Proof.
  apply (getEdge_keeps_older_edge s_AB_x kA kB 1%positive "y"%string s_AB_xy).
  - apply reachable_after. by vm_compute.
  - vm_compute. reflexivity.
  - left. vm_compute. reflexivity.
Defined.
